(** * ai: natural-language task to shell command

    A shallow embedding of the command-line tool [ai] (package [main], one Go
    file) and the verification of its specification: the command sanitizer,
    the response normalizer, the fan-out coordinator [getCommands] and the
    flag handling of [main].

    Go strings are byte sequences; they are modelled as [list ascii].  The
    few functions of Go's standard library the program calls ([strings],
    [strconv], [regexp]) are modelled in [GoLib] by what they compute on
    bytes. *)

From Stdlib Require Import ZArith Ascii String List Permutation Lia.
From stdpp Require Import base decidable option list gmap strings.

Local Open Scope Z_scope.
Local Open Scope list_scope.

(** ** Byte strings *)

Abbreviation bytes := (list ascii).

(** A literal, as the bytes of its characters. *)
Definition str (s : string) : bytes := list_ascii_of_string s.

Definition LF : ascii := "010"%char.

Definition byte (n : N) : ascii := ascii_of_N n.

(** ** The parts of Go's standard library that the program uses *)
Module GoLib.

(** [strings.HasPrefix]. *)
Fixpoint HasPrefix (s prefix : bytes) {struct prefix} : bool :=
  match prefix, s with
  | [], _ => true
  | p :: prefix', c :: s' => Ascii.eqb p c && HasPrefix s' prefix'
  | _ :: _, [] => false
  end.

(** [strings.HasSuffix]. *)
Definition HasSuffix (s suffix : bytes) : bool :=
  HasPrefix (reverse s) (reverse suffix).

(** [strings.TrimPrefix]: [s] without the leading [prefix], or [s] itself
    when it does not start with [prefix]. *)
Definition TrimPrefix (s prefix : bytes) : bytes :=
  if HasPrefix s prefix then drop (length prefix) s else s.

(** [strings.IndexByte]: the index of the first [c] in [s], or -1. *)
Fixpoint IndexByte (s : bytes) (c : ascii) : Z :=
  match s with
  | [] => -1
  | x :: s' =>
      if Ascii.eqb x c then 0
      else let i := IndexByte s' c in if i <? 0 then -1 else i + 1
  end.

(** The slice [s[:i]], for [0 <= i <= len(s)]. *)
Definition sliceTo (s : bytes) (i : Z) : bytes := take (Z.to_nat i) s.

(** [strings.Join]. *)
Fixpoint Join (elems : list bytes) (sep : bytes) : bytes :=
  match elems with
  | [] => []
  | [e] => e
  | e :: rest => e ++ sep ++ Join rest sep
  end.

(** *** White space, as [unicode.IsSpace] sees it

    [strings.TrimSpace] removes leading and trailing code points with
    the Unicode White_Space property.  The string is decoded as UTF-8; a
    byte that does not start a well-formed encoding decodes to U+FFFD,
    which is not white space.  So, on bytes, a white-space code point is
    recognised exactly where its UTF-8 encoding stands. *)

(** The code points of [unicode.White_Space]. *)
Definition White_Space : list N :=
  [0x09; 0x0A; 0x0B; 0x0C; 0x0D; 0x20; 0x85; 0xA0; 0x1680;
   0x2000; 0x2001; 0x2002; 0x2003; 0x2004; 0x2005; 0x2006; 0x2007;
   0x2008; 0x2009; 0x200A; 0x2028; 0x2029; 0x202F; 0x205F; 0x3000]%N.

(** [utf8.AppendRune] for the code points below U+10000 that are not
    surrogates (all of [White_Space] is). *)
Definition EncodeRune (r : N) : bytes :=
  (if r <? 0x80 then [byte r]
   else if r <? 0x800 then
     [byte (0xC0 + r / 0x40); byte (0x80 + r mod 0x40)]
   else
     [byte (0xE0 + r / 0x1000); byte (0x80 + (r / 0x40) mod 0x40);
      byte (0x80 + r mod 0x40)])%N.

Definition spaceEncodings : list bytes :=
  Eval vm_compute in map EncodeRune White_Space.

(** Width in bytes of the white-space code point that [s] starts with,
    0 when it starts with none. *)
Definition leadingSpace (s : bytes) : nat :=
  match List.find (HasPrefix s) spaceEncodings with
  | Some e => length e
  | None => 0%nat
  end.

(** Width in bytes of the white-space code point that [s] ends with,
    0 when it ends with none. *)
Definition trailingSpace (s : bytes) : nat :=
  match List.find (HasSuffix s) spaceEncodings with
  | Some e => length e
  | None => 0%nat
  end.

(** [n] bounds the number of code points still to remove. *)
Fixpoint trimLeftN (n : nat) (s : bytes) : bytes :=
  match n with
  | O => s
  | S n' =>
      match leadingSpace s with
      | O => s
      | w => trimLeftN n' (drop w s)
      end
  end.

Fixpoint trimRightN (n : nat) (s : bytes) : bytes :=
  match n with
  | O => s
  | S n' =>
      match trailingSpace s with
      | O => s
      | w => trimRightN n' (take (length s - w) s)
      end
  end.

Definition TrimLeftSpace (s : bytes) : bytes := trimLeftN (length s) s.
Definition TrimRightSpace (s : bytes) : bytes := trimRightN (length s) s.

(** [strings.TrimSpace]: leading white space goes first, then trailing. *)
Definition TrimSpace (s : bytes) : bytes := TrimRightSpace (TrimLeftSpace s).

(** *** Integers *)

Definition minInt64 : Z := - 2 ^ 63.
Definition maxInt64 : Z := 2 ^ 63 - 1.

Definition inInt64 (z : Z) : bool := (minInt64 <=? z) && (z <=? maxInt64).

(** Two's complement wrap-around of 64-bit signed arithmetic. *)
Definition wrap64 (z : Z) : Z := (z + 2 ^ 63) mod 2 ^ 64 - 2 ^ 63.

Definition isDigit (c : ascii) : bool :=
  (48 <=? N_of_ascii c)%N && (N_of_ascii c <=? 57)%N.

Fixpoint digitsValue (acc : Z) (s : bytes) : option Z :=
  match s with
  | [] => Some acc
  | c :: s' =>
      if isDigit c
      then digitsValue (acc * 10 + (Z.of_N (N_of_ascii c) - 48)) s'
      else None
  end.

(** [strconv.Atoi] on a 64-bit platform: an optional sign and at least
    one decimal digit, the value within [int]; [None] stands for a
    non-nil error (syntax or range). *)
Definition Atoi (s : bytes) : option Z :=
  let '(neg, ds) :=
    match s with
    | c :: r => if Ascii.eqb c "-" then (true, r)
                else if Ascii.eqb c "+" then (false, r)
                else (false, s)
    | [] => (false, s)
    end in
  match ds with
  | [] => None
  | _ => v ← digitsValue 0 ds;
         let n := if neg : bool then - v else v in
         if inInt64 n then Some n else None
  end.

End GoLib.

Import GoLib.

(** ** Command sanitizer *)
Module Sanitizer.

Definition fence : bytes := str "```".

(** The alternatives of [(?:sh|bash|zsh)?], in the order the matcher
    prefers them; the last one is the group matching nothing. *)
Definition fenceTags : list bytes := [str "sh"; str "bash"; str "zsh"; []].

Definition stripPrefix (prefix s : bytes) : option bytes :=
  if HasPrefix s prefix then Some (drop (length prefix) s) else None.

(** [(.*?)close] at the head of [s]: the shortest text followed by
    [close].  With flag [s] the dot matches every code point, and a
    line feed always stands on a code point boundary. *)
Fixpoint lazyUntil (close s : bytes) : option bytes :=
  if HasPrefix s close then Some []
  else match s with
       | [] => None
       | c :: s' => cons c <$> lazyUntil close s'
       end.

Fixpoint firstSome {A B} (f : A → option B) (l : list A) : option B :=
  match l with
  | [] => None
  | a :: l' => match f a with Some b => Some b | None => firstSome f l' end
  end.

(** The pattern of [codeBlockRe] anchored at the head of [s]; the result
    is capture group 1. *)
Definition codeBlockAt (s : bytes) : option bytes :=
  r ← stripPrefix fence s;
  firstSome (λ tag, body ← stripPrefix (tag ++ [LF]) r;
                    lazyUntil (LF :: fence) body) fenceTags.

(** [codeBlockRe.FindStringSubmatch(s)] for
    [codeBlockRe = (?s)```(?:sh|bash|zsh)?\n(.*?)\n```]: the leftmost
    match.  [Some g] stands for the two-element result [[whole; g]],
    [None] for the nil result. *)
Fixpoint codeBlockRe_FindStringSubmatch (s : bytes) : option bytes :=
  match codeBlockAt s with
  | Some g => Some g
  | None => match s with
            | [] => None
            | _ :: s' => codeBlockRe_FindStringSubmatch s'
            end
  end.

Definition notLF (c : ascii) : bool := negb (Ascii.eqb c LF).

(** The class [[^\n#;]] on the first byte of a code point. *)
Definition lineStarter (c : ascii) : bool :=
  negb (Ascii.eqb c LF || Ascii.eqb c "#" || Ascii.eqb c ";").

Fixpoint takeWhile {A} (p : A → bool) (l : list A) : list A :=
  match l with
  | [] => []
  | a :: l' => if p a then a :: takeWhile p l' else []
  end.

(** [bol] tells whether the head of [s] is at the beginning of a line. *)
Fixpoint firstLineFrom (bol : bool) (s : bytes) : bytes :=
  match s with
  | [] => []
  | c :: s' =>
      if bol && lineStarter c then takeWhile notLF s
      else firstLineFrom (Ascii.eqb c LF) s'
  end.

(** [firstLineRe.FindString(s)] for [firstLineRe = (?m)^[^\n#;][^\n]*]:
    the leftmost match, the empty string when there is none. *)
Definition firstLineRe_FindString (s : bytes) : bytes := firstLineFrom true s.

Definition isEmpty (s : bytes) : bool :=
  match s with [] => true | _ => false end.

Definition sanitizeToSingleCommand (s : bytes) : bytes :=
  let trim := TrimSpace s in
  let trim := match codeBlockRe_FindStringSubmatch trim with
              | Some m1 => TrimSpace m1
              | None => trim
              end in
  let trim := let m := firstLineRe_FindString trim in
              if negb (isEmpty m) then TrimSpace m else trim in
  let trim := let i := IndexByte trim LF in
              if 0 <=? i then TrimSpace (sliceTo trim i) else trim in
  let trim := TrimPrefix trim (str "$ ") in
  let trim := TrimPrefix trim (str "> ") in
  let trim := TrimSpace trim in
  trim.

End Sanitizer.

Import Sanitizer.

(** ** Response normalizer *)
Module Normalizer.

Record contentPart := {
  contentPart_Type : bytes;
  contentPart_Text : bytes }.

Record outputItem := {
  outputItem_Type : bytes;
  outputItem_Text : bytes;
  outputItem_Content : list contentPart;
  outputItem_Role : bytes }.

Record candidatePart := {
  candidatePart_Type : bytes;
  candidatePart_Text : bytes }.

Record candidateContent := {
  candidateContent_Type : bytes;
  Parts : list candidatePart }.

Record candidate := { Content : candidateContent }.

Record responseResp := {
  ID : bytes;
  Object : bytes;
  Created : Z;
  Model : bytes;
  Output : list outputItem;
  OutputText : bytes;
  Candidates : list candidate }.

(** [strings.TrimSpace(s) != ""]. *)
Definition nonBlank (s : bytes) : bool := negb (isEmpty (TrimSpace s)).

(** [if nonBlank(text) { out = append(out, text) }]. *)
Definition appendNonBlank (out : list bytes) (text : bytes) : list bytes :=
  if nonBlank text then out ++ [text] else out.

Definition extractCandidates (rr : responseResp) : list bytes :=
  let out :=
    foldl (λ out c,
             foldl (λ out p, appendNonBlank out (candidatePart_Text p))
                   out (Parts (Content c)))
          [] (Candidates rr) in
  if (length out =? 0)%nat && negb (isEmpty (OutputText rr))
  then out ++ [OutputText rr]
  else out.

(** The candidates of one decoded response, as [makeAPICall] collects
    them: [extractCandidates], then the two fall-backs written out in
    [makeAPICall] itself. *)
Definition callCandidates (rr : responseResp) : list bytes :=
  let candidates := extractCandidates rr in
  let candidates :=
    if (length candidates =? 0)%nat && negb (isEmpty (OutputText rr))
    then [OutputText rr] else candidates in
  if (length candidates =? 0)%nat then
    foldl (λ candidates it,
             if nonBlank (outputItem_Text it)
             then candidates ++ [outputItem_Text it]
             else if (0 <? length (outputItem_Content it))%nat then
               foldl (λ candidates part,
                        appendNonBlank candidates (contentPart_Text part))
                     candidates (outputItem_Content it)
             else candidates)
          candidates (Output rr)
  else candidates.

(** The sanitized commands of the candidates; an empty command is never
    appended. *)
Definition callCommands (candidates : list bytes) : list bytes :=
  foldl (λ commands c,
           let cmd := sanitizeToSingleCommand c in
           if negb (isEmpty cmd) then commands ++ [cmd] else commands)
        [] candidates.

End Normalizer.

Import Normalizer.

(** ** Fan-out coordinator *)
Module Coordinator.

(** Go's [error] values that the program sees: an error returned by a
    library ([net/http], [encoding/json]) and the one [makeAPICall] builds
    with [fmt.Errorf("status %d: %s", code, body)]. *)
Inductive error :=
| LibError (msg : bytes)
| StatusError (code : Z) (body : bytes).

Record apiCallResult := {
  Commands : list bytes;
  Duration : Z;                (* time.Duration: int64 nanoseconds *)
  RawResponse : bytes;         (* nil is the empty sequence *)
  Error : option error }.

Record apiResult := {
  result : apiCallResult;
  err : option error }.

(** What one call meets on the network.  [body] is the data of
    [ioReadAll] when it returns no error; [decode] is what the JSON
    decoder makes of the body ([json.Unmarshal] on the data read, the
    streaming [Decode] when none was). *)
Inductive exchange :=
| DoFailed (e : error)
| Responded (StatusCode : Z) (body : option bytes)
            (decode : error + responseResp).

(** One call: its exchange and [time.Since(startTime)] at the moment its
    result is built. *)
Record call := {
  outcome : exchange;
  elapsed : Z }.

Definition failure (e : error) (d : Z) (raw : bytes) : apiResult :=
  {| result := {| Commands := []; Duration := d; RawResponse := raw;
                  Error := Some e |};
     err := Some e |}.

(** The closure [makeAPICall] of [getCommands]: the result it sends on
    the channel. *)
Definition makeAPICall (verbose : bool) (c : call) : apiResult :=
  match outcome c with
  | DoFailed e => failure e (elapsed c) []
  | Responded StatusCode body decode =>
      let rawResponse :=
        if verbose then match body with Some data => data | None => [] end
        else [] in
      let respData := match body with Some data => data | None => [] end in
      if 400 <=? StatusCode then
        failure (StatusError StatusCode respData) (elapsed c) rawResponse
      else
        match decode with
        | inl e => failure e (elapsed c) rawResponse
        | inr rr =>
            let candidates := callCandidates rr in
            let commands := callCommands candidates in
            {| result := {| Commands := commands; Duration := elapsed c;
                            RawResponse := rawResponse; Error := None |};
               err := None |}
        end
  end.

(** The receiving loop over the channel. *)
Definition collect (received : list apiResult)
  : list apiCallResult * option error :=
  foldl (λ '(allResults, firstError) r,
           let firstError :=
             match err r, firstError with
             | Some e, None => Some e
             | _, _ => firstError
             end in
           (allResults ++ [result r], firstError))
        ([], None) received.

(** [seen] is the Go map used as a set. *)
Definition dedupStep (st : list bytes * gset bytes) (cmd : bytes)
  : list bytes * gset bytes :=
  let '(unique, seen) := st in
  if decide (cmd ∈ seen) then (unique, seen)
  else (unique ++ [cmd], {[cmd]} ∪ seen).

Definition dedup (allResults : list apiCallResult) : list bytes :=
  (foldl (λ st r, foldl dedupStep st (Commands r)) ([], ∅) allResults).1.

Definition sumDurations (allResults : list apiCallResult) : Z :=
  foldl (λ totalDuration r, wrap64 (totalDuration + Duration r))
        0 allResults.

(** [getCommands].  Each of the [numCommands] goroutines sends exactly
    one result on the channel, and the receiving loop ends when all have:
    [completed] lists the calls in the order their results arrive.
    The pair is Go's [(results, err)]; a nil slice is the empty list. *)
Definition getCommands (verbose : bool) (completed : list call)
  : list apiCallResult * option error :=
  let '(allResults, firstError) :=
    collect (makeAPICall verbose <$> completed) in
  match firstError with
  | Some e => ([], Some e)
  | None =>
      let unique := dedup allResults in
      let totalDuration := sumDurations allResults in
      let combinedResult :=
        {| Commands := unique; Duration := totalDuration;
           RawResponse := []; Error := None |} in
      (combinedResult :: allResults, None)
  end.

End Coordinator.

Import Coordinator.

(** ** The program: flags, prompt, selection, execution *)
Module Cli.

Definition usageLong : bytes :=
  str "Usage: ai [-v] [-n <number>] <task description>" ++ [LF] ++
  str "Example: ai find biggest file here" ++ [LF] ++
  str "       ai -v list files in current dir" ++ [LF] ++
  str "       ai -n 5 find files here".
Definition usageShort : bytes :=
  str "Usage: ai [-v] [-n <number>] <task description>".

(** The variables of the flag loop. *)
Record flags := {
  verbose : bool;
  numCommands : Z;
  taskStart : nat }.

(** The flag loop of [main] at index [i], with [rest = os.Args[i:]].
    The [break] of the [default] case leaves the [switch] statement, not
    the [for] loop, so the loop goes on with the next argument.  [inl msg]
    is the message printed before [os.Exit(2)]. *)
Fixpoint flagLoop (i : nat) (rest : list bytes) (f : flags)
  : bytes + flags :=
  match rest with
  | [] => inr f
  | arg :: rest' =>
      if bool_decide (arg = str "-v") then
        flagLoop (i + 1) rest'
          {| verbose := true; numCommands := numCommands f;
             taskStart := i + 1 |}
      else if bool_decide (arg = str "-n") then
        match rest' with
        | [] => inl (str "Error: -n requires a number argument")
        | number :: rest'' =>
            match Atoi number with
            | Some n =>
                if n <? 1
                then inl (str "Error: -n requires a positive integer")
                else flagLoop (i + 2) rest''
                       {| verbose := verbose f; numCommands := n;
                          taskStart := i + 2 |}
            | None => inl (str "Error: -n requires a positive integer")
            end
        end
      else
        flagLoop (i + 1) rest'
          {| verbose := verbose f; numCommands := numCommands f;
             taskStart := i |}
  end.

Definition lookupCtx (ctx : list (bytes * bytes)) (k : bytes) : bytes :=
  match List.find (λ kv, bool_decide (kv.1 = k)) ctx with
  | Some kv => kv.2
  | None => []
  end.

(** [buildPrompt].  [ctx] lists the entries of the context map in the
    order the [range] statement visits them. *)
Definition buildPrompt (task : bytes) (ctx : list (bytes * bytes)) : bytes :=
  str "You are a shell command generator." ++ [LF] ++
  str "Output exactly one safe, single-line command for POSIX " ++
    lookupCtx ctx (str "shell") ++ [LF] ++
  str "Rules:" ++ [LF] ++
  str "- NO explanations or extra text. Only the command." ++ [LF] ++
  str "- Avoid destructive actions (rm -rf, chmod -R, sudo, moving/deleting) unless explicitly requested." ++ [LF] ++
  str "- Prefer read-only queries (ls/find/stat/du/grep) when unsure." ++ [LF] ++
  str "- Use utilities commonly available on Linux/macOS." ++ [LF] ++
  str "- Must run correctly in the current working directory." ++ [LF] ++
  str "- If paths contain spaces, quote them safely." ++ [LF] ++
  str "- If the task is ambiguous, choose the safest widely useful command." ++ [LF] ++
  [LF] ++ str "Environment context:" ++ [LF] ++
  foldl (λ b kv, if isEmpty kv.2 then b
                 else b ++ str "- " ++ kv.1 ++ str ": " ++ kv.2 ++ [LF])
        [] ctx ++
  [LF] ++ str "Task:" ++ [LF] ++
  task ++
  [LF].

(** How the selected command ends: [cmd.Run()] returns nil, an
    [*exec.ExitError] with its exit code, or another error. *)
Inductive runResult :=
| RunOk
| RunExit (code : Z)
| RunError (e : error).

(** What the program meets outside itself. *)
Record world := {
  Args : list bytes;                       (* os.Args *)
  OPENAI_TOKEN : bytes;
  context : list (bytes * bytes);          (* gatherContext() *)
  (** the calls of [getCommands(ctx, token, prompt, verbose, n)], in
      completion order *)
  network : bytes → bytes → bool → Z → list call;
  stdinLine : bytes;                       (* reader.ReadString('\n') *)
  shell : bytes → runResult }.             (* runCommand *)

(** The lines of [printVerboseOutput], by their format and arguments. *)
Inductive verboseLine :=
| VHeader
| VCommandsGenerated (n : nat)
| VTotalTime (d : Z)
| VConcurrentCalls (n : nat)
| VAverageTime (d : Z)
| VRequestTime (d : Z)
| VGenerated
| VCommand (i : nat) (cmd : bytes)
| VResponse (i : nat) (raw : bytes)
| VNoRawResponses
| VFooter.

(** What the program does, in order. *)
Inductive event :=
| Stderr (line : bytes)
| StderrError (label : bytes) (e : error)    (* Fprintln(os.Stderr, label, err) *)
| Stdout (line : bytes)
| Verbose (l : verboseLine)
| BuildPrompt (task : bytes)
| Request (prompt : bytes) (verbose : bool) (n : Z)
| Menu (cmds : list bytes)
| Exec (command : bytes).

(** A finished run: its events and the exit code of the process. *)
Definition run : Type := list event * Z.

(** Go's division of [int64] by a positive count truncates. *)
Definition printVerboseOutput (results : list apiCallResult)
  : list verboseLine :=
  match results with
  | [] => []
  | combinedResult :: individualResults =>
      [VHeader; VCommandsGenerated (length (Commands combinedResult))] ++
      (if (0 <? length individualResults)%nat then
         [VTotalTime (Duration combinedResult);
          VConcurrentCalls (length individualResults);
          VAverageTime (Z.quot (Duration combinedResult)
                               (Z.of_nat (length individualResults)))]
       else [VRequestTime (Duration combinedResult)]) ++
      [VGenerated] ++
      imap (λ i cmd, VCommand (i + 1) cmd) (Commands combinedResult) ++
      (let responses :=
         omap id (imap (λ i r, if (0 <? length (RawResponse r))%nat
                               then Some (VResponse (i + 1) (RawResponse r))
                               else None) individualResults) in
       responses ++
       (if (length responses =? 0)%nat then [VNoRawResponses] else [])) ++
      [VFooter]
  end.

(** [selectCommand], on the line read from standard input. *)
Definition selectCommand (cmds : list bytes) (line : bytes)
  : option bytes :=
  match Atoi (TrimSpace line) with
  | Some idx =>
      if (idx <? 1) || (Z.of_nat (length cmds) <? idx) then None
      else cmds !! (Z.to_nat (idx - 1))
  | None => None
  end.

(** The first part of [main], up to the check of [taskStart]: [inl msg]
    is the usage error printed before [os.Exit(2)]. *)
Definition parseArgs (args : list bytes) : bytes + flags :=
  if (length args <? 2)%nat then inl usageLong
  else
    match flagLoop 1 (drop 1 args)
            {| verbose := false; numCommands := 3; taskStart := 1 |} with
    | inl msg => inl msg
    | inr f =>
        if (length args <=? taskStart f)%nat then inl usageShort else inr f
    end.

(** [strings.Join(os.Args[taskStart:], " ")]. *)
Definition taskOf (args : list bytes) (f : flags) : bytes :=
  Join (drop (taskStart f) args) (str " ").

Definition main (w : world) : run :=
  match parseArgs (Args w) with
  | inl msg => ([Stderr msg], 2)
  | inr f =>
      if isEmpty (OPENAI_TOKEN w)
      then ([Stderr (str "Error: OPENAI_TOKEN not set")], 2)
      else
        let task := taskOf (Args w) f in
        let prompt := buildPrompt task (context w) in
        let before :=
          [BuildPrompt task; Request prompt (verbose f) (numCommands f)] in
        match getCommands (verbose f)
                (network w (OPENAI_TOKEN w) prompt (verbose f)
                         (numCommands f)) with
        | (_, Some e) => (before ++ [StderrError (str "API error:") e], 1)
        | (results, None) =>
            match results with
            | [] => (before ++ [Stderr (str "No commands generated")], 1)
            | combined :: _ =>
                if (length (Commands combined) =? 0)%nat
                then (before ++ [Stderr (str "No commands generated")], 1)
                else
                  let shown :=
                    before ++
                    (if verbose f
                     then Verbose <$> printVerboseOutput results
                     else []) ++
                    [Menu (Commands combined)] in
                  match selectCommand (Commands combined) (stdinLine w) with
                  | None =>
                      (shown ++ [StderrError (str "Selection error:")
                                   (LibError (str "invalid selection"))], 1)
                  | Some choice =>
                      let ran := shown ++ [Stdout choice; Exec choice] in
                      match shell w choice with
                      | RunOk => (ran, 0)
                      | RunExit code => (ran, code)
                      | RunError e =>
                          (ran ++ [StderrError (str "Execution error:") e], 1)
                      end
                  end
            end
        end
  end.

End Cli.

Import Cli.

(** ** Notions the specification speaks of *)
Module Spec.

(** A single line: no line feed. *)
Definition singleLine (x : bytes) : Prop := LF ∉ x.

(** [x] starts with an interactive-prompt marker. *)
Definition promptMarked (x : bytes) : bool :=
  HasPrefix x (str "$ ") || HasPrefix x (str "> ").

(** A single trimmed line. *)
Definition trimmedLine (x : bytes) : Prop := singleLine x ∧ TrimSpace x = x.

(** An already-clean single-line command: one line, no white space at
    either end, no prompt marker in front. *)
Definition clean (x : bytes) : Prop :=
  singleLine x ∧ TrimSpace x = x ∧ promptMarked x = false.

(** *** Command line *)

(** An argument that is none of the flags. *)
Definition isWord (arg : bytes) : Prop := arg ≠ str "-v" ∧ arg ≠ str "-n".

(** *** Aggregation *)

(** Keeping the first occurrence of each distinct element. *)
Fixpoint keepFirst (l : list bytes) : list bytes :=
  match l with
  | [] => []
  | x :: l' => x :: filter (λ y, y ≠ x) (keepFirst l')
  end.

(** The commands of the per-call results, call after call, each in its
    candidate order. *)
Definition allCommands (results : list apiCallResult) : list bytes :=
  concat (Commands <$> results).

(** The aggregated result of a successful [getCommands] is the head of
    the list it returns. *)
Definition aggregated (r : list apiCallResult * option error) : list bytes :=
  match r.1 with
  | combined :: _ => Commands combined
  | [] => []
  end.

Definition succeeded (r : list apiCallResult * option error) : Prop :=
  r.2 = None.

Definition totalElapsed (completed : list call) : Z :=
  foldr (λ c total, elapsed c + total) 0 completed.

(** *** Call failure *)

(** A call fails, as the specification words it: network error, non-2xx
    status, or decode failure. *)
Definition failsNon2xx (c : call) : bool :=
  match outcome c with
  | DoFailed _ => true
  | Responded status _ decode =>
      negb ((200 <=? status) && (status <? 300))
      || match decode with inl _ => true | inr _ => false end
  end.

(** A call fails, by the status test of the code: network error, status
    400 or above, or decode failure. *)
Definition fails (c : call) : bool :=
  match outcome c with
  | DoFailed _ => true
  | Responded status _ decode =>
      (400 <=? status)
      || match decode with inl _ => true | inr _ => false end
  end.

(** The cause of a call's failure. *)
Definition cause (c : call) : option error :=
  match outcome c with
  | DoFailed e => Some e
  | Responded status body decode =>
      if 400 <=? status
      then Some (StatusError status (default [] body))
      else match decode with inl e => Some e | inr _ => None end
  end.

(** The error of the first failing result, in the order received. *)
Fixpoint firstFailure (received : list apiResult) : option error :=
  match received with
  | [] => None
  | r :: received' =>
      match err r with
      | Some e => Some e
      | None => firstFailure received'
      end
  end.

(** *** Extraction strategies *)

(** Strategy 1: the non-blank part texts of the candidates collection,
    in document order. *)
Definition strategy1 (rr : responseResp) : list bytes :=
  flat_map (λ c, List.filter nonBlank
                   (candidatePart_Text <$> Parts (Content c)))
           (Candidates rr).

(** Strategy 2: the aggregated output text, whole, when it is not the
    empty string. *)
Definition strategy2 (rr : responseResp) : list bytes :=
  if isEmpty (OutputText rr) then [] else [OutputText rr].

(** Strategy 3: for each output item its direct text if non-blank, else
    the non-blank texts of its content parts. *)
Definition strategy3 (rr : responseResp) : list bytes :=
  flat_map (λ it, if nonBlank (outputItem_Text it)
                  then [outputItem_Text it]
                  else List.filter nonBlank
                         (contentPart_Text <$> outputItem_Content it))
           (Output rr).

(** The first of the given results that holds a non-blank candidate. *)
Definition firstWithNonBlank (results : list (list bytes)) : list bytes :=
  default [] (List.find (existsb nonBlank) results).

(** The first of the given results that holds a candidate at all. *)
Definition firstNonEmpty (results : list (list bytes)) : list bytes :=
  default [] (List.find (λ r, bool_decide (r ≠ [])) results).

End Spec.

Import Spec.

(** ** Sample inputs *)
Module Samples.

Definition DQ : ascii := "034"%char.

Definition emptyResponse : responseResp :=
  {| ID := []; Object := []; Created := 0; Model := [];
     Output := []; OutputText := []; Candidates := [] |}.

(** A decoded response whose only content is its output text. *)
Definition textResponse (text : bytes) : responseResp :=
  {| ID := []; Object := str "response"; Created := 0; Model := str "gpt-5.1";
     Output := []; OutputText := text; Candidates := [] |}.

(** The body [{"output_text":"<text>"}]. *)
Definition textBody (text : bytes) : bytes :=
  str "{" ++ [DQ] ++ str "output_text" ++ [DQ] ++ str ":" ++
  [DQ] ++ text ++ [DQ] ++ str "}".

(** A call answered with [status] and the output text [text], after
    [ns] nanoseconds. *)
Definition answered (status : Z) (text : bytes) (ns : Z) : call :=
  {| outcome := Responded status (Some (textBody text))
                          (inr (textResponse text));
     elapsed := ns |}.

(** A call that fails on the network after [ns] nanoseconds. *)
Definition refused (msg : bytes) (ns : Z) : call :=
  {| outcome := DoFailed (LibError msg); elapsed := ns |}.

Definition textItem (text : bytes) : outputItem :=
  {| outputItem_Type := str "message"; outputItem_Text := text;
     outputItem_Content := []; outputItem_Role := str "assistant" |}.

(** An output text of one space, next to an output item with a command. *)
Definition blankTextResponse : responseResp :=
  {| ID := []; Object := str "response"; Created := 0; Model := str "gpt-5.1";
     Output := [textItem (str "ls")]; OutputText := str " ";
     Candidates := [] |}.

(** Candidates and an output text side by side. *)
Definition bothResponse : responseResp :=
  {| ID := []; Object := str "response"; Created := 0; Model := str "gpt-5.1";
     Output := []; OutputText := str "pwd";
     Candidates :=
       [ {| Content :=
              {| candidateContent_Type := [];
                 Parts := [ {| candidatePart_Type := str "text";
                               candidatePart_Text := str "ls -la" |};
                            {| candidatePart_Type := str "text";
                               candidatePart_Text := str "  " |} ] |} |} ] |}.

(** A decoded response with one candidate holding the given part
    texts. *)
Definition partsResponse (texts : list bytes) : responseResp :=
  {| ID := []; Object := str "response"; Created := 0; Model := str "gpt-5.1";
     Output := []; OutputText := [];
     Candidates :=
       [ {| Content :=
              {| candidateContent_Type := [];
                 Parts := (λ t, {| candidatePart_Type := str "text";
                                   candidatePart_Text := t |}) <$> texts |} |} ] |}.

(** A call answered with status 200 and the given part texts. *)
Definition answeredParts (texts : list bytes) (ns : Z) : call :=
  {| outcome := Responded 200 None (inr (partsResponse texts));
     elapsed := ns |}.

Definition sampleWorld (args : list bytes) (calls : list call) : world :=
  {| Args := args;
     OPENAI_TOKEN := str "sk-test";
     context := [(str "shell", str "/bin/sh"); (str "os", str "linux")];
     network := λ _ _ _ _, calls;
     stdinLine := str "1" ++ [LF];
     shell := λ _, RunOk |}.

End Samples.

Import Samples.

(** ** The environment context *)
Module Environment.

(** [strings.ReplaceAll(s, old, new)] for a non-empty [old]: the matches
    are taken from the left and do not overlap.  [skip] counts the bytes of
    the match just replaced that are still to be passed over. *)
Fixpoint replaceFrom (old new : bytes) (skip : nat) (s : bytes) : bytes :=
  match s with
  | [] => []
  | c :: s' =>
      match skip with
      | S k => replaceFrom old new k s'
      | O => if HasPrefix s old
             then new ++ replaceFrom old new (length old - 1) s'
             else c :: replaceFrom old new 0 s'
      end
  end.

Definition ReplaceAll (s old new : bytes) : bytes := replaceFrom old new 0 s.

(** [readSystemInfo], on what [os.ReadFile("/etc/issue")] returns: [None]
    stands for a non-nil error.  The two patterns are a backslash followed
    by [n] and a backslash followed by [l]. *)
Definition readSystemInfo (issue : option bytes) : bytes :=
  match issue with
  | None => []
  | Some data =>
      let content := data in
      let content := ReplaceAll content (str "\n") [] in
      let content := ReplaceAll content (str "\l") [] in
      let content := TrimSpace content in
      content
  end.

(** What [gatherContext] reads from the host. *)
Record host := {
  GOOS : bytes;                  (* runtime.GOOS *)
  GOARCH : bytes;                (* runtime.GOARCH *)
  SHELL : bytes;                 (* os.Getenv("SHELL"), empty when unset *)
  etcIssue : option bytes }.     (* os.ReadFile("/etc/issue") *)

(** [gatherContext]: the context map. *)
Definition gatherContext (h : host) : gmap bytes bytes :=
  let shell := if isEmpty (SHELL h) then str "sh" else SHELL h in
  let systemInfo := readSystemInfo (etcIssue h) in
  list_to_map
    [(str "os", GOOS h);
     (str "arch", GOARCH h);
     (str "shell", shell);
     (str "safe_mode", str "on");
     (str "system", systemInfo)].

(** [ctx] is an order in which a [range] statement may visit the entries
    of the map [m]. *)
Definition rangeOrder (m : gmap bytes bytes) (ctx : list (bytes * bytes)) : Prop :=
  ctx ≡ₚ map_to_list m.

End Environment.

Import Environment.

(** ** Notions used to state how the program behaves *)
Module Behaviour.

(** [t] is a contiguous piece of [s]. *)
Definition sliceOf (t s : bytes) : Prop := ∃ l r, s = l ++ t ++ r.

(** The exit code of the process after the selected command has run. *)
Definition exitCodeOf (r : runResult) : Z :=
  match r with
  | RunOk => 0
  | RunExit code => code
  | RunError _ => 1
  end.

(** The line [buildPrompt] writes for one context entry. *)
Definition contextLine (kv : bytes * bytes) : bytes :=
  if isEmpty kv.2 then []
  else str "- " ++ kv.1 ++ str ": " ++ kv.2 ++ [LF].

(** The fixed opening of the prompt, up to the context lines. *)
Definition promptHead (shell : bytes) : bytes :=
  str "You are a shell command generator." ++ [LF] ++
  str "Output exactly one safe, single-line command for POSIX " ++
    shell ++ [LF] ++
  str "Rules:" ++ [LF] ++
  str "- NO explanations or extra text. Only the command." ++ [LF] ++
  str "- Avoid destructive actions (rm -rf, chmod -R, sudo, moving/deleting) unless explicitly requested." ++ [LF] ++
  str "- Prefer read-only queries (ls/find/stat/du/grep) when unsure." ++ [LF] ++
  str "- Use utilities commonly available on Linux/macOS." ++ [LF] ++
  str "- Must run correctly in the current working directory." ++ [LF] ++
  str "- If paths contain spaces, quote them safely." ++ [LF] ++
  str "- If the task is ambiguous, choose the safest widely useful command." ++ [LF] ++
  [LF] ++ str "Environment context:" ++ [LF].

(** The closing of the prompt: the task section. *)
Definition promptTail (task : bytes) : bytes :=
  [LF] ++ str "Task:" ++ [LF] ++ task ++ [LF].

(** A host for examples. *)
Definition sampleHost : host :=
  {| GOOS := str "linux"; GOARCH := str "amd64"; SHELL := [];
     etcIssue := Some (str "Ubuntu 22.04 LTS \n \l" ++ [LF; LF]) |}.

End Behaviour.

Import Behaviour.

(** * Verification *)

(** ** Facts on the library model *)
Section GoLibFacts.

#[local] Arguments leadingSpace : simpl never.
#[local] Arguments trailingSpace : simpl never.

Lemma HasPrefix_spec (s p : bytes) : HasPrefix s p = true ↔ p `prefix_of` s.
Proof.
  revert s. induction p as [|a p IH]; intros s; simpl.
  - split; [intros _; apply prefix_nil | done].
  - destruct s as [|c s].
    + split; [done | intros [k Hk]; discriminate].
    + rewrite andb_true_iff, IH. split.
      * intros [Hac Hp]. apply Ascii.eqb_eq in Hac as ->. by apply prefix_cons.
      * intros H. split.
        -- apply Ascii.eqb_eq. by apply prefix_cons_inv_1 in H.
        -- by apply prefix_cons_inv_2 in H.
Qed.

Lemma HasSuffix_spec (s p : bytes) : HasSuffix s p = true ↔ p `suffix_of` s.
Proof. unfold HasSuffix. by rewrite HasPrefix_spec, suffix_prefix_reverse. Qed.

Lemma spaceEncodings_nonempty e : e ∈ spaceEncodings → (0 < length e)%nat.
Proof.
  revert e. apply Forall_forall. unfold spaceEncodings.
  repeat constructor.
Qed.

(** [leadingSpace s] is the width of an encoding [s] starts with. *)
Lemma leadingSpace_pos (s : bytes) :
  leadingSpace s ≠ 0%nat →
  ∃ e, e ∈ spaceEncodings ∧ e `prefix_of` s ∧ leadingSpace s = length e.
Proof.
  unfold leadingSpace. destruct (List.find _ _) as [e|] eqn:Hf; [|done].
  intros _. apply find_some in Hf as [Hin Hp]. exists e.
  split; [by apply list_elem_of_In|]. split; [by apply HasPrefix_spec | done].
Qed.

Lemma leadingSpace_zero (s : bytes) :
  leadingSpace s = 0%nat ↔ ∀ e, e ∈ spaceEncodings → ¬ e `prefix_of` s.
Proof.
  unfold leadingSpace. destruct (List.find _ _) as [e|] eqn:Hf; split.
  - apply find_some in Hf as [Hin _]. apply list_elem_of_In in Hin.
    apply spaceEncodings_nonempty in Hin. lia.
  - intros H. apply find_some in Hf as [Hin Hp]. exfalso.
    apply (H e); [by apply list_elem_of_In | by apply HasPrefix_spec].
  - intros _ e He Hp. apply list_elem_of_In in He.
    apply (find_none _ _ Hf) in He. apply HasPrefix_spec in Hp. congruence.
  - done.
Qed.

Lemma trailingSpace_pos (s : bytes) :
  trailingSpace s ≠ 0%nat →
  ∃ e, e ∈ spaceEncodings ∧ e `suffix_of` s ∧ trailingSpace s = length e.
Proof.
  unfold trailingSpace. destruct (List.find _ _) as [e|] eqn:Hf; [|done].
  intros _. apply find_some in Hf as [Hin Hp]. exists e.
  split; [by apply list_elem_of_In|]. split; [by apply HasSuffix_spec | done].
Qed.

Lemma trailingSpace_zero (s : bytes) :
  trailingSpace s = 0%nat ↔ ∀ e, e ∈ spaceEncodings → ¬ e `suffix_of` s.
Proof.
  unfold trailingSpace. destruct (List.find _ _) as [e|] eqn:Hf; split.
  - apply find_some in Hf as [Hin _]. apply list_elem_of_In in Hin.
    apply spaceEncodings_nonempty in Hin. lia.
  - intros H. apply find_some in Hf as [Hin Hp]. exfalso.
    apply (H e); [by apply list_elem_of_In | by apply HasSuffix_spec].
  - intros _ e He Hp. apply list_elem_of_In in He.
    apply (find_none _ _ Hf) in He. apply HasSuffix_spec in Hp. congruence.
  - done.
Qed.

(** A prefix of a string that starts with no white space starts with
    none either. *)
Lemma leadingSpace_prefix (t u : bytes) :
  t `prefix_of` u → leadingSpace u = 0%nat → leadingSpace t = 0%nat.
Proof.
  rewrite !leadingSpace_zero. intros Htu H e He Hp.
  apply (H e He). by etrans.
Qed.

Lemma trimLeftN_suffix n (s : bytes) : trimLeftN n s `suffix_of` s.
Proof.
  revert s. induction n as [|n IH]; intros s; simpl; [done|].
  destruct (leadingSpace s) as [|w]; [done|].
  etrans; [apply IH | apply suffix_drop].
Qed.

Lemma trimRightN_prefix n (s : bytes) : trimRightN n s `prefix_of` s.
Proof.
  revert s. induction n as [|n IH]; intros s; simpl; [done|].
  destruct (trailingSpace s) as [|w]; [done|].
  etrans; [apply IH | apply prefix_take].
Qed.

Lemma trimLeftN_fixed n (s : bytes) :
  leadingSpace s = 0%nat → trimLeftN n s = s.
Proof. intros H. destruct n; [done|]. cbn [trimLeftN]. by rewrite H. Qed.

Lemma trimRightN_fixed n (s : bytes) :
  trailingSpace s = 0%nat → trimRightN n s = s.
Proof. intros H. destruct n; [done|]. cbn [trimRightN]. by rewrite H. Qed.

(** The bound [length s] is enough: nothing is left to remove. *)
Lemma trimLeftN_done n (s : bytes) :
  (length s ≤ n)%nat → leadingSpace (trimLeftN n s) = 0%nat.
Proof.
  revert s. induction n as [|n IH]; intros s Hn; simpl.
  - destruct s; [|simpl in Hn; lia].
    apply leadingSpace_zero. intros e He Hp.
    apply spaceEncodings_nonempty in He. apply prefix_length in Hp.
    simpl in Hp. lia.
  - destruct (leadingSpace s) as [|w] eqn:Hw; [done|].
    apply IH. rewrite length_drop. lia.
Qed.

Lemma trimRightN_done n (s : bytes) :
  (length s ≤ n)%nat → trailingSpace (trimRightN n s) = 0%nat.
Proof.
  revert s. induction n as [|n IH]; intros s Hn; simpl.
  - destruct s; [|simpl in Hn; lia].
    apply trailingSpace_zero. intros e He Hp.
    apply spaceEncodings_nonempty in He. apply suffix_length in Hp.
    simpl in Hp. lia.
  - destruct (trailingSpace s) as [|w] eqn:Hw; [done|].
    apply IH. rewrite length_take. lia.
Qed.

(** The trim is a slice of the string. *)
Lemma TrimSpace_slice (s : bytes) : ∃ l r, s = l ++ TrimSpace s ++ r.
Proof.
  unfold TrimSpace, TrimRightSpace, TrimLeftSpace.
  destruct (trimLeftN_suffix (length s) s) as [l Hl].
  destruct (trimRightN_prefix (length (trimLeftN (length s) s))
              (trimLeftN (length s) s)) as [r Hr].
  exists l, r. by rewrite <- Hr.
Qed.

Lemma TrimSpace_elem (s : bytes) c : c ∈ TrimSpace s → c ∈ s.
Proof.
  destruct (TrimSpace_slice s) as (l & r & Hs). intros Hc.
  rewrite Hs, !elem_of_app. auto.
Qed.

Lemma TrimSpace_leading (s : bytes) : leadingSpace (TrimSpace s) = 0%nat.
Proof.
  unfold TrimSpace, TrimRightSpace.
  eapply leadingSpace_prefix; [apply trimRightN_prefix|].
  by apply trimLeftN_done.
Qed.

Lemma TrimSpace_trailing (s : bytes) : trailingSpace (TrimSpace s) = 0%nat.
Proof. unfold TrimSpace, TrimRightSpace. by apply trimRightN_done. Qed.

(** A string is its own trim exactly when no white space stands at
    either end. *)
Lemma TrimSpace_fixed (s : bytes) :
  TrimSpace s = s ↔ leadingSpace s = 0%nat ∧ trailingSpace s = 0%nat.
Proof.
  split.
  - intros <-. split; [apply TrimSpace_leading | apply TrimSpace_trailing].
  - intros [Hl Hr]. unfold TrimSpace, TrimRightSpace, TrimLeftSpace.
    rewrite (trimLeftN_fixed _ _ Hl). by apply trimRightN_fixed.
Qed.

Lemma TrimSpace_idempotent (s : bytes) : TrimSpace (TrimSpace s) = TrimSpace s.
Proof.
  apply TrimSpace_fixed.
  split; [apply TrimSpace_leading | apply TrimSpace_trailing].
Qed.

Lemma TrimSpace_nil : TrimSpace [] = [].
Proof. reflexivity. Qed.

(** A no-break space (C2 A0) in front and an en quad (E2 80 80) behind are
    white space like the ASCII ones. *)
Example TrimSpace_unicode :
  TrimSpace ([byte 0xC2; byte 0xA0] ++ str " ls -la" ++ [LF] ++
             [byte 0xE2; byte 0x80; byte 0x80]) = str "ls -la".
Proof. vm_compute. reflexivity. Qed.

(** A lone lead byte is not white space, the OGHAM SPACE MARK behind it
    is. *)
Example TrimSpace_invalid_utf8 :
  TrimSpace [byte 0xC2; byte 0xE1; byte 0x9A; byte 0x80] = [byte 0xC2].
Proof. vm_compute. reflexivity. Qed.

End GoLibFacts.

(** ** Loops that append *)
Section Loops.

Context {A B : Type}.

(** A loop that appends [G a] for each [a] computes a [flat_map]. *)
Lemma foldl_flat_map (F : list B → A → list B) (G : A → list B) :
  (∀ acc a, F acc a = acc ++ G a) →
  ∀ l acc, foldl F acc l = acc ++ flat_map G l.
Proof.
  intros HF l. induction l as [|a l IH]; intros acc; simpl.
  - by rewrite app_nil_r.
  - by rewrite IH, HF, <- app_assoc.
Qed.

Lemma flat_map_singleton_filter (p : A → bool) (g : A → B) l :
  flat_map (λ a, if p a then [g a] else []) l = g <$> List.filter p l.
Proof.
  induction l as [|a l IH]; simpl; [done|].
  destruct (p a); simpl; by rewrite IH.
Qed.

(** [for a in l { if p(a) { out = append(out, g(a)) } }]. *)
Lemma foldl_snoc_if (p : A → bool) (g : A → B) l acc :
  foldl (λ out a, if p a then out ++ [g a] else out) acc l
  = acc ++ (g <$> List.filter p l).
Proof.
  rewrite <- flat_map_singleton_filter.
  apply foldl_flat_map. intros out a. destruct (p a); [done|].
  by rewrite app_nil_r.
Qed.

End Loops.

(** ** The sanitizer *)
Section SanitizerFacts.

Lemma IndexByte_range (s : bytes) c : -1 ≤ IndexByte s c.
Proof.
  induction s as [|x s IH]; simpl; [lia|].
  destruct (Ascii.eqb x c); [lia|]. destruct (Z.ltb_spec (IndexByte s c) 0); lia.
Qed.

(** No [c] stands before the index [IndexByte] returns. *)
Lemma IndexByte_before (s : bytes) c :
  0 ≤ IndexByte s c → c ∉ sliceTo s (IndexByte s c).
Proof.
  unfold sliceTo. induction s as [|x s IH]; simpl; [lia|].
  destruct (Ascii.eqb x c) eqn:Hx; [intros _; simpl; apply not_elem_of_nil|].
  destruct (Z.ltb_spec (IndexByte s c) 0) as [Hneg|Hpos]; [lia|]. intros _.
  replace (Z.to_nat (IndexByte s c + 1)) with (S (Z.to_nat (IndexByte s c))) by lia.
  simpl. rewrite not_elem_of_cons. split; [|by apply IH].
  intros ->. by rewrite Ascii.eqb_refl in Hx.
Qed.

Lemma IndexByte_absent (s : bytes) c : IndexByte s c < 0 ↔ c ∉ s.
Proof.
  induction s as [|x s IH]; simpl.
  - split; [intros _; apply not_elem_of_nil | lia].
  - rewrite not_elem_of_cons. destruct (Ascii.eqb_spec x c) as [->|Hne].
    + split; [lia | intros [? _]; done].
    + pose proof (IndexByte_range s c).
      destruct (Z.ltb_spec (IndexByte s c) 0) as [Hneg|Hpos].
      * split; [intros _; split; [congruence | by apply IH] | lia].
      * split; [lia | intros [_ Hs%IH]; lia].
Qed.

Lemma TrimPrefix_elem (s p : bytes) c : c ∈ TrimPrefix s p → c ∈ s.
Proof.
  unfold TrimPrefix. destruct (HasPrefix s p); [|done].
  intros H. eapply elem_of_suffix; [done | apply suffix_drop].
Qed.

Lemma TrimPrefix_unmarked (s p : bytes) :
  HasPrefix s p = false → TrimPrefix s p = s.
Proof. unfold TrimPrefix. by intros ->. Qed.

Lemma firstSome_Some {A B} (f : A → option B) l b :
  firstSome f l = Some b → ∃ a, a ∈ l ∧ f a = Some b.
Proof.
  induction l as [|a l IH]; simpl; [done|].
  destruct (f a) eqn:Hfa.
  - intros [= ->]. exists a. split; [apply elem_of_cons; auto | done].
  - intros (a' & Hin & Ha')%IH. exists a'. split; [apply elem_of_cons; auto | done].
Qed.

Lemma stripPrefix_Some (p s r : bytes) :
  stripPrefix p s = Some r → s = p ++ r.
Proof.
  unfold stripPrefix. destruct (HasPrefix s p) eqn:Hp; [|done].
  intros [= <-]. apply HasPrefix_spec in Hp as [k ->].
  by rewrite drop_app_length.
Qed.

(** A match of [codeBlockRe] contains a line feed. *)
Lemma codeBlockAt_LF (s g : bytes) : codeBlockAt s = Some g → LF ∈ s.
Proof.
  unfold codeBlockAt.
  destruct (stripPrefix fence s) as [r|] eqn:Hr; [|done].
  apply stripPrefix_Some in Hr as ->. cbn [mbind option_bind].
  intros (tag & _ & Htag)%firstSome_Some.
  destruct (stripPrefix (tag ++ [LF]) r) as [body|] eqn:Hb; [|done].
  apply stripPrefix_Some in Hb as ->.
  rewrite !elem_of_app, list_elem_of_singleton. auto.
Qed.

Lemma codeBlockRe_LF (s g : bytes) :
  codeBlockRe_FindStringSubmatch s = Some g → LF ∈ s.
Proof.
  induction s as [|c s IH]; simpl.
  - destruct (codeBlockAt []) eqn:Hc; [|done]. intros _. by eapply codeBlockAt_LF.
  - destruct (codeBlockAt (c :: s)) eqn:Hc.
    + intros _. by eapply codeBlockAt_LF.
    + intros H%IH. by apply elem_of_cons; right.
Qed.

Lemma codeBlockRe_singleLine (s : bytes) :
  LF ∉ s → codeBlockRe_FindStringSubmatch s = None.
Proof.
  intros H. destruct (codeBlockRe_FindStringSubmatch s) eqn:E; [|done].
  by apply codeBlockRe_LF in E.
Qed.

Lemma takeWhile_notLF_singleLine (s : bytes) : LF ∉ s → takeWhile notLF s = s.
Proof.
  induction s as [|c s IH]; simpl; [done|].
  rewrite not_elem_of_cons. intros [Hc Hs]. unfold notLF at 1.
  destruct (Ascii.eqb_spec c LF) as [->|_]; [done|]. simpl. by rewrite IH.
Qed.

Lemma firstLineFrom_false_singleLine (s : bytes) :
  LF ∉ s → firstLineFrom false s = [].
Proof.
  induction s as [|c s IH]; simpl; [done|].
  rewrite not_elem_of_cons. intros [Hc Hs].
  destruct (Ascii.eqb_spec c LF) as [->|_]; [done|]. by apply IH.
Qed.

(** On a single line the pattern of [firstLineRe] matches the whole line
    or nothing. *)
Lemma firstLineRe_singleLine (s : bytes) :
  LF ∉ s → firstLineRe_FindString s = s ∨ firstLineRe_FindString s = [].
Proof.
  unfold firstLineRe_FindString. destruct s as [|c s]; simpl; [auto|].
  intros H. destruct (lineStarter c).
  - left. change (takeWhile notLF (c :: s) = c :: s).
    by apply takeWhile_notLF_singleLine.
  - right. apply not_elem_of_cons in H as [Hc Hs].
    destruct (Ascii.eqb_spec c LF) as [->|_]; [done|].
    by apply firstLineFrom_false_singleLine.
Qed.

(** Step 4 of the sanitizer leaves a single line, whatever it receives. *)
Lemma truncate_singleLine (t : bytes) :
  LF ∉ (if 0 <=? IndexByte t LF
        then TrimSpace (sliceTo t (IndexByte t LF)) else t).
Proof.
  destruct (Z.leb_spec 0 (IndexByte t LF)) as [Hi|Hi].
  - intros H%TrimSpace_elem. by apply IndexByte_before in H.
  - by apply IndexByte_absent.
Qed.

Lemma sanitize_clean (x : bytes) : clean x → sanitizeToSingleCommand x = x.
Proof.
  intros (Hline & Htrim & Hmark). unfold sanitizeToSingleCommand.
  rewrite Htrim, (codeBlockRe_singleLine x Hline).
  assert ((if negb (isEmpty (firstLineRe_FindString x))
           then TrimSpace (firstLineRe_FindString x) else x) = x) as ->.
  { destruct (firstLineRe_singleLine x Hline) as [-> | ->]; [|done].
    rewrite Htrim. by destruct (negb _). }
  apply IndexByte_absent in Hline.
  destruct (Z.leb_spec 0 (IndexByte x LF)) as [?|_]; [lia|].
  unfold promptMarked in Hmark. apply orb_false_iff in Hmark as [H1 H2].
  by rewrite (TrimPrefix_unmarked _ _ H1), (TrimPrefix_unmarked _ _ H2).
Qed.

Lemma sanitize_singleLine (s : bytes) : LF ∉ sanitizeToSingleCommand s.
Proof.
  unfold sanitizeToSingleCommand.
  intros H%TrimSpace_elem%TrimPrefix_elem%TrimPrefix_elem.
  by apply truncate_singleLine in H.
Qed.

(** The closing fence of a block tagged with another language opens the
    match, and an empty block gives the empty command. *)
Example sanitize_other_fences :
  sanitizeToSingleCommand
    (str "```python" ++ [LF] ++ str "x" ++ [LF] ++ str "```" ++ [LF] ++
     str "ls" ++ [LF] ++ str "```") = str "ls"
  ∧ sanitizeToSingleCommand (str "```" ++ [LF; LF] ++ str "```") = [].
Proof. split; vm_compute; reflexivity. Qed.

(** Sanitizing twice is sanitizing once, unless the first pass leaves a
    prompt marker in front. *)
Lemma sanitize_idempotent_unless_marked (s : bytes) :
  promptMarked (sanitizeToSingleCommand s) = false →
  sanitizeToSingleCommand (sanitizeToSingleCommand s) = sanitizeToSingleCommand s.
Proof.
  intros Hmark. apply sanitize_clean. split; [apply sanitize_singleLine|].
  split; [|done]. unfold sanitizeToSingleCommand. apply TrimSpace_idempotent.
Qed.

(** One pass strips one prompt marker only: on a line with two of them the
    second pass changes the result of the first. *)
Lemma sanitize_twice_differs :
  sanitizeToSingleCommand (str "$ $ ls") = str "$ ls"
  ∧ sanitizeToSingleCommand (sanitizeToSingleCommand (str "$ $ ls")) = str "ls".
Proof. split; vm_compute; reflexivity. Qed.

End SanitizerFacts.

(** C6.  The sanitizer changes nothing on an already-clean single-line
    command [x] (one line, trimmed, no prompt marker in front), so that
    sanitizing twice is sanitizing once:
    [sanitize (sanitize x) = sanitize x]. *)
Theorem sanitize_idempotent_on_clean (x : bytes) :
  clean x →
  sanitizeToSingleCommand (sanitizeToSingleCommand x) = sanitizeToSingleCommand x.
Proof. intros H. by rewrite !(sanitize_clean x H). Qed.

Lemma sanitize_idempotent_on_clean_witness :
  clean (str "ls -la") ∧
  sanitizeToSingleCommand (sanitizeToSingleCommand (str "ls -la"))
  = sanitizeToSingleCommand (str "ls -la").
Proof.
  assert (clean (str "ls -la")) as H.
  { split; [|split]; [|reflexivity..].
    unfold singleLine. by apply IndexByte_absent. }
  split; [exact H | exact (sanitize_idempotent_on_clean _ H)].
Defined.

(** C9.  The reference vectors of the sanitizer: a fenced block, a comment
    line to skip, a prompt marker to strip. *)
Theorem sanitize_reference_vectors :
  sanitizeToSingleCommand
    (str "```bash" ++ [LF] ++ str "ls -la" ++ [LF] ++ str "```") = str "ls -la"
  ∧ sanitizeToSingleCommand (str "# a note" ++ [LF] ++ str "ls -la") = str "ls -la"
  ∧ sanitizeToSingleCommand (str "$ ls -la") = str "ls -la".
Proof. repeat split; vm_compute; reflexivity. Qed.


(** ** The coordinator *)
Section CoordinatorFacts.

Lemma collect_spec (received : list apiResult) :
  collect received = (result <$> received, firstFailure received).
Proof.
  unfold collect.
  enough (∀ acc fe,
    foldl (λ '(allResults, firstError) r,
             let firstError :=
               match err r, firstError with
               | Some e, None => Some e
               | _, _ => firstError
               end in
             (allResults ++ [result r], firstError)) (acc, fe) received
    = (acc ++ (result <$> received),
       match fe with Some e => Some e | None => firstFailure received end))
    as H by apply H.
  induction received as [|r received IH]; intros acc fe; simpl.
  - rewrite app_nil_r. by destruct fe.
  - rewrite IH, <- app_assoc. simpl. f_equal.
    destruct (err r), fe; done.
Qed.

(** [firstFailure] is the error of the first result that has one. *)
Lemma firstFailure_Some (received : list apiResult) e :
  firstFailure received = Some e ↔
  ∃ pre r post, received = pre ++ r :: post
                ∧ Forall (λ r', err r' = None) pre ∧ err r = Some e.
Proof.
  induction received as [|r0 received IH]; simpl.
  - split; [done | intros (pre & r & post & H & _); by destruct pre].
  - split.
    + destruct (err r0) as [e0|] eqn:H0.
      * intros [= ->]. exists [], r0, received. by repeat split.
      * intros (pre & r & post & -> & Hpre & Hr)%IH.
        exists (r0 :: pre), r, post. repeat split; [|done]. by constructor.
    + intros (pre & r & post & Heq & Hpre & Hr).
      destruct pre as [|r1 pre]; simpl in Heq; injection Heq as -> ->.
      * by rewrite Hr.
      * apply Forall_cons in Hpre as [-> Hpre].
        apply IH. by exists pre, r, post.
Qed.

Lemma firstFailure_None (received : list apiResult) :
  firstFailure received = None ↔ Forall (λ r, err r = None) received.
Proof.
  induction received as [|r received IH]; simpl; [by split|].
  rewrite Forall_cons. destruct (err r).
  - split; [done | by intros [? _]].
  - rewrite IH. tauto.
Qed.

Lemma makeAPICall_err verbose c : err (makeAPICall verbose c) = cause c.
Proof.
  unfold makeAPICall, cause. destruct (outcome c) as [e|status body decode]; [done|].
  destruct (400 <=? status); [by destruct body|]. by destruct decode.
Qed.

Lemma cause_fails c : fails c = true ↔ is_Some (cause c).
Proof.
  unfold fails, cause. destruct (outcome c) as [e|status body decode].
  - split; [by eexists | done].
  - destruct (400 <=? status); simpl; [split; [by eexists | done]|].
    destruct decode; split; (done || by eexists || by intros [? ?]).
Qed.

Lemma makeAPICall_Duration verbose c :
  Duration (result (makeAPICall verbose c)) = elapsed c.
Proof.
  unfold makeAPICall. destruct (outcome c) as [e|status body decode]; [done|].
  destruct (400 <=? status); [done|]. by destruct decode.
Qed.

(** *** Deduplication *)

Lemma dedup_flatten (allResults : list apiCallResult) st :
  foldl (λ st r, foldl dedupStep st (Commands r)) st allResults
  = foldl dedupStep st (allCommands allResults).
Proof.
  unfold allCommands. revert st.
  induction allResults as [|r rs IH]; intros st; simpl; [done|].
  by rewrite foldl_app, IH.
Qed.

Lemma filter_keepFirst_cons (u : list bytes) x (l : list bytes) :
  x ∉ u →
  filter (λ y, y ∉ u ++ [x]) l = filter (λ y, y ∉ u) (filter (λ y, y ≠ x) l).
Proof.
  intros Hx. rewrite list_filter_filter. apply list_filter_iff.
  intros y. rewrite elem_of_app, list_elem_of_singleton. tauto.
Qed.

Lemma filter_keepFirst_seen (u : list bytes) x (l : list bytes) :
  x ∈ u →
  filter (λ y, y ∉ u) (filter (λ y, y ≠ x) l) = filter (λ y, y ∉ u) l.
Proof.
  intros Hx. rewrite list_filter_filter. apply list_filter_iff.
  intros y. split; [tauto|]. intros Hy. split; [done|]. by intros ->.
Qed.

(** The loop with the [seen] map appends to [unique] the first
    occurrences of the commands not yet in it. *)
Lemma dedupStep_loop (l : list bytes) (unique : list bytes) :
  foldl dedupStep (unique, list_to_set unique) l
  = (unique ++ filter (λ y, y ∉ unique) (keepFirst l),
     list_to_set (unique ++ filter (λ y, y ∉ unique) (keepFirst l))).
Proof.
  revert unique. induction l as [|x l IH]; intros unique; simpl.
  - by rewrite app_nil_r.
  - destruct (decide (x ∈ list_to_set unique)) as [Hin|Hout].
    + apply elem_of_list_to_set in Hin.
      rewrite IH, filter_cons_False by tauto.
      by rewrite filter_keepFirst_seen.
    + rewrite elem_of_list_to_set in Hout.
      replace ({[x]} ∪ list_to_set unique : gset bytes)
        with (list_to_set (C := gset bytes) (unique ++ [x]))
        by (rewrite list_to_set_snoc_L; apply (comm_L (∪))).
      rewrite IH, filter_cons_True by done.
      rewrite <- filter_keepFirst_cons by done.
      by rewrite <- !app_assoc.
Qed.

Lemma dedup_spec (allResults : list apiCallResult) :
  dedup allResults = keepFirst (allCommands allResults).
Proof.
  unfold dedup. rewrite dedup_flatten.
  change (∅ : gset bytes) with (list_to_set (C := gset bytes) []).
  rewrite dedupStep_loop. simpl.
  induction (keepFirst (allCommands allResults)) as [|x l IH]; [done|].
  rewrite filter_cons_True by apply not_elem_of_nil. by rewrite IH.
Qed.

Lemma elem_of_keepFirst (l : list bytes) x : x ∈ keepFirst l ↔ x ∈ l.
Proof.
  induction l as [|y l IH]; simpl; [done|].
  rewrite !elem_of_cons, list_elem_of_filter, IH.
  destruct (decide (x = y)); tauto.
Qed.

Lemma NoDup_keepFirst (l : list bytes) : NoDup (keepFirst l).
Proof.
  induction l as [|y l IH]; simpl; [constructor|].
  constructor; [|by apply NoDup_filter].
  rewrite list_elem_of_filter. tauto.
Qed.

Lemma allCommands_Permutation (rs rs' : list apiCallResult) :
  rs ≡ₚ rs' → allCommands rs ≡ₚ allCommands rs'.
Proof. unfold allCommands. by intros ->. Qed.

(** *** Durations *)

Lemma wrap64_add_l a b : wrap64 (wrap64 a + b) = wrap64 (a + b).
Proof.
  unfold wrap64. f_equal.
  replace ((a + 2 ^ 63) mod 2 ^ 64 - 2 ^ 63 + b + 2 ^ 63)
    with ((a + 2 ^ 63) mod 2 ^ 64 + b) by lia.
  rewrite Zplus_mod_idemp_l. f_equal. lia.
Qed.

Lemma wrap64_small z : inInt64 z = true → wrap64 z = z.
Proof.
  unfold inInt64, wrap64, minInt64, maxInt64.
  rewrite andb_true_iff, !Z.leb_le. intros [? ?].
  rewrite Z.mod_small; lia.
Qed.

Lemma sumDurations_spec (completed : list call) verbose :
  sumDurations (result ∘ makeAPICall verbose <$> completed)
  = wrap64 (totalElapsed completed).
Proof.
  unfold sumDurations.
  enough (∀ acc,
    foldl (λ totalDuration r, wrap64 (totalDuration + Duration r))
          (wrap64 acc) (result ∘ makeAPICall verbose <$> completed)
    = wrap64 (acc + totalElapsed completed)) as H by apply (H 0).
  induction completed as [|c completed IH]; intros acc; simpl.
  - by rewrite Z.add_0_r.
  - rewrite makeAPICall_Duration, wrap64_add_l, IH. f_equal. lia.
Qed.

(** *** The two ways out of [getCommands] *)

Lemma getCommands_failure verbose completed e :
  firstFailure (makeAPICall verbose <$> completed) = Some e →
  getCommands verbose completed = ([], Some e).
Proof. intros H. unfold getCommands. by rewrite collect_spec, H. Qed.

Lemma getCommands_success verbose completed :
  firstFailure (makeAPICall verbose <$> completed) = None →
  getCommands verbose completed
  = ({| Commands := keepFirst (allCommands
                      (result ∘ makeAPICall verbose <$> completed));
        Duration := wrap64 (totalElapsed completed);
        RawResponse := []; Error := None |}
     :: (result ∘ makeAPICall verbose <$> completed), None).
Proof.
  intros H. unfold getCommands. rewrite collect_spec, H.
  rewrite <- list_fmap_compose, dedup_spec, sumDurations_spec. done.
Qed.

(** A successful run is one in which no call fails. *)
Lemma getCommands_succeeded verbose completed :
  succeeded (getCommands verbose completed) ↔
  firstFailure (makeAPICall verbose <$> completed) = None.
Proof.
  unfold succeeded.
  destruct (firstFailure (makeAPICall verbose <$> completed)) as [e|] eqn:H.
  - by rewrite (getCommands_failure _ _ _ H).
  - by rewrite (getCommands_success _ _ H).
Qed.

End CoordinatorFacts.

(** ** Aggregation *)

(** C2, as amended.  On full success the aggregated command list is built
    by going through the per-call results in the order they were received,
    that is completion order, and within a call in candidate order, keeping
    the first occurrence of each distinct command.  Two completion orders
    of the same calls both succeed and yield the same commands, up to
    their order. *)
Theorem aggregate_in_completion_order verbose (completed : list call) :
  succeeded (getCommands verbose completed) →
  aggregated (getCommands verbose completed)
  = keepFirst (allCommands (result ∘ makeAPICall verbose <$> completed))
  ∧ ∀ completed',
      completed' ≡ₚ completed →
      succeeded (getCommands verbose completed')
      ∧ aggregated (getCommands verbose completed')
        ≡ₚ aggregated (getCommands verbose completed).
Proof.
  intros Hok%getCommands_succeeded. split.
  - by rewrite (getCommands_success _ _ Hok).
  - intros completed' Hperm.
    assert (firstFailure (makeAPICall verbose <$> completed') = None) as Hok'.
    { apply firstFailure_None. apply firstFailure_None in Hok.
      by rewrite Hperm. }
    split; [by apply getCommands_succeeded|].
    rewrite (getCommands_success _ _ Hok), (getCommands_success _ _ Hok').
    unfold aggregated; simpl.
    apply NoDup_Permutation; [apply NoDup_keepFirst..|].
    intros x. rewrite !elem_of_keepFirst.
    by rewrite (allCommands_Permutation _ _ (fmap_Permutation _ _ _ Hperm)).
Qed.

Lemma aggregate_in_completion_order_witness :
  succeeded (getCommands false [answered 200 (str "ls") 5; answered 200 (str "pwd") 7])
  ∧ aggregated (getCommands false [answered 200 (str "ls") 5; answered 200 (str "pwd") 7])
    = keepFirst (allCommands (result ∘ makeAPICall false <$>
                   [answered 200 (str "ls") 5; answered 200 (str "pwd") 7])).
Proof.
  assert (succeeded (getCommands false
            [answered 200 (str "ls") 5; answered 200 (str "pwd") 7])) as H
    by (vm_compute; reflexivity).
  split; [exact H|].
  exact (proj1 (aggregate_in_completion_order false _ H)).
Defined.

(** C2, as stated, fails: the same two calls, received in the two possible
    completion orders, give two different aggregated lists; when the call
    launched second completes first, the aggregated list is not the one
    built in call-index order. *)
Lemma aggregate_depends_on_completion_order :
  [answered 200 (str "pwd") 7; answered 200 (str "ls") 5]
    ≡ₚ [answered 200 (str "ls") 5; answered 200 (str "pwd") 7]
  ∧ getCommands false [answered 200 (str "ls") 5; answered 200 (str "pwd") 7]
    = ([ {| Commands := [str "ls"; str "pwd"]; Duration := 12;
            RawResponse := []; Error := None |};
         {| Commands := [str "ls"]; Duration := 5;
            RawResponse := []; Error := None |};
         {| Commands := [str "pwd"]; Duration := 7;
            RawResponse := []; Error := None |} ], None)
  ∧ getCommands false [answered 200 (str "pwd") 7; answered 200 (str "ls") 5]
    = ([ {| Commands := [str "pwd"; str "ls"]; Duration := 12;
            RawResponse := []; Error := None |};
         {| Commands := [str "pwd"]; Duration := 7;
            RawResponse := []; Error := None |};
         {| Commands := [str "ls"]; Duration := 5;
            RawResponse := []; Error := None |} ], None)
  ∧ aggregated (getCommands false
                  [answered 200 (str "ls") 5; answered 200 (str "pwd") 7])
    ≠ aggregated (getCommands false
                    [answered 200 (str "pwd") 7; answered 200 (str "ls") 5])
  ∧ aggregated (getCommands false
                  [answered 200 (str "pwd") 7; answered 200 (str "ls") 5])
    ≠ keepFirst (allCommands (result ∘ makeAPICall false <$>
                   [answered 200 (str "ls") 5; answered 200 (str "pwd") 7])).
Proof.
  split; [apply perm_swap|].
  split; [vm_compute; reflexivity|].
  split; [vm_compute; reflexivity|].
  split; vm_compute; discriminate.
Qed.

(** C4.  On every successful run the aggregated command list holds no two
    equal strings, whatever the per-call lists repeat. *)
Theorem aggregated_NoDup verbose (completed : list call) :
  succeeded (getCommands verbose completed) →
  NoDup (aggregated (getCommands verbose completed)).
Proof.
  intros Hok%getCommands_succeeded. rewrite (getCommands_success _ _ Hok).
  apply NoDup_keepFirst.
Qed.

Lemma aggregated_NoDup_witness :
  succeeded (getCommands false
               [answeredParts [str "ls"; str "pwd"; str "$ ls"] 5;
                answeredParts [str "pwd"; str "du"] 7])
  ∧ NoDup (aggregated (getCommands false
               [answeredParts [str "ls"; str "pwd"; str "$ ls"] 5;
                answeredParts [str "pwd"; str "du"] 7])).
Proof.
  assert (succeeded (getCommands false
               [answeredParts [str "ls"; str "pwd"; str "$ ls"] 5;
                answeredParts [str "pwd"; str "du"] 7])) as H
    by (vm_compute; reflexivity).
  split; [exact H | exact (aggregated_NoDup false _ H)].
Defined.

(** ** Failure *)

(** C3, as amended.  If at least one of the calls fails (network error,
    status 400 or above, or decode failure), [getCommands] returns one
    error, the cause of the first failing call in completion order, and no
    result list. *)
Theorem first_failure_is_the_error verbose (completed : list call) :
  (∃ c, c ∈ completed ∧ fails c = true) →
  ∃ pre c post e,
    completed = pre ++ c :: post
    ∧ Forall (λ c', fails c' = false) pre
    ∧ cause c = Some e
    ∧ getCommands verbose completed = ([], Some e).
Proof.
  intros (c0 & Hin & Hfail).
  destruct (firstFailure (makeAPICall verbose <$> completed)) as [e|] eqn:Hff.
  - pose proof (getCommands_failure _ _ _ Hff) as Hget.
    apply firstFailure_Some in Hff as (pre' & r & post' & Heq & Hpre & Hr).
    apply fmap_app_inv in Heq as (pre & rest & -> & Hrest & ->).
    symmetry in Hrest. apply fmap_cons_inv in Hrest as (c & post & -> & -> & ->).
    exists pre, c, post, e. split; [done|]. split; [|split; [|done]].
    + apply Forall_fmap in Hpre. eapply Forall_impl; [exact Hpre|].
      intros c' Hc'. simpl in Hc'. rewrite makeAPICall_err in Hc'.
      destruct (fails c') eqn:Hf; [|done].
      apply cause_fails in Hf as [? ?]. congruence.
    + by rewrite <- (makeAPICall_err verbose).
  - exfalso. apply firstFailure_None in Hff.
    apply Forall_fmap in Hff. rewrite Forall_forall in Hff.
    specialize (Hff c0 Hin). simpl in Hff. rewrite makeAPICall_err in Hff.
    apply cause_fails in Hfail as [? ?]. congruence.
Qed.

(** Three calls that all fail: the error returned is the one of the call
    that completed first. *)
Lemma first_failure_is_the_error_witness :
  (∃ c, c ∈ [refused (str "timeout") 30; answered 500 (str "oops") 2;
             refused (str "reset") 1]
        ∧ fails c = true)
  ∧ ∃ pre c post e,
      [refused (str "timeout") 30; answered 500 (str "oops") 2;
       refused (str "reset") 1] = pre ++ c :: post
      ∧ Forall (λ c', fails c' = false) pre
      ∧ cause c = Some e
      ∧ getCommands true [refused (str "timeout") 30; answered 500 (str "oops") 2;
                          refused (str "reset") 1] = ([], Some e).
Proof.
  assert (∃ c, c ∈ [refused (str "timeout") 30; answered 500 (str "oops") 2;
                    refused (str "reset") 1] ∧ fails c = true) as H.
  { exists (refused (str "timeout") 30). split; [apply elem_of_cons; auto | reflexivity]. }
  split; [exact H | exact (first_failure_is_the_error true _ H)].
Defined.

(** With three calls that all fail, the one error returned is that of the
    call received first; the two others are not reported. *)
Lemma three_failures_one_error :
  getCommands false [refused (str "timeout") 30; answered 500 (str "oops") 2;
                     refused (str "reset") 1]
  = ([], Some (LibError (str "timeout")))
  ∧ getCommands false [answered 500 (str "oops") 2; refused (str "reset") 1;
                       refused (str "timeout") 30]
    = ([], Some (StatusError 500 (textBody (str "oops")))).
Proof. split; vm_compute; reflexivity. Qed.

(** C3, as stated, fails on a status that is neither 2xx nor 400 or above:
    a call answered with status 300 and a decodable body counts as a
    success, and the whole operation succeeds. *)
Lemma non_2xx_status_below_400_succeeds :
  failsNon2xx (answered 300 (str "ls") 5) = true
  ∧ getCommands false [answered 300 (str "ls") 5]
    = ([ {| Commands := [str "ls"]; Duration := 5;
            RawResponse := []; Error := None |};
         {| Commands := [str "ls"]; Duration := 5;
            RawResponse := []; Error := None |} ], None).
Proof. split; vm_compute; reflexivity. Qed.

(** ** Durations *)

(** C7.  On full success the duration of the aggregated result is the sum
    of the elapsed durations of the calls, as long as that sum is a
    [time.Duration], and the average printed by [printVerboseOutput] is
    that sum divided by the number of calls. *)
Theorem total_duration_is_sum verbose (completed : list call) :
  succeeded (getCommands verbose completed) →
  completed ≠ [] →
  inInt64 (totalElapsed completed) = true →
  ∃ combined individual,
    getCommands verbose completed = (combined :: individual, None)
    ∧ length individual = length completed
    ∧ Duration combined = totalElapsed completed
    ∧ VTotalTime (totalElapsed completed)
        ∈ printVerboseOutput (combined :: individual)
    ∧ VAverageTime (Z.quot (totalElapsed completed)
                           (Z.of_nat (length completed)))
        ∈ printVerboseOutput (combined :: individual).
Proof.
  intros Hok%getCommands_succeeded Hne Hfit.
  rewrite (getCommands_success _ _ Hok). eexists _, _. split; [done|].
  split; [by rewrite length_fmap|]. simpl.
  rewrite (wrap64_small _ Hfit). split; [done|].
  rewrite length_fmap.
  destruct completed as [|c completed]; [done|]. simpl.
  split; repeat (apply elem_of_cons; (by left) || right).
Qed.

Lemma total_duration_is_sum_witness :
  ∃ combined individual,
    getCommands true [answered 200 (str "ls") 1500; answered 200 (str "pwd") 700;
                      answered 200 (str "ls") 800]
    = (combined :: individual, None)
    ∧ length individual = 3%nat
    ∧ Duration combined = 3000
    ∧ VTotalTime 3000 ∈ printVerboseOutput (combined :: individual)
    ∧ VAverageTime 1000 ∈ printVerboseOutput (combined :: individual).
Proof.
  apply (total_duration_is_sum true
           [answered 200 (str "ls") 1500; answered 200 (str "pwd") 700;
            answered 200 (str "ls") 800]);
    [vm_compute; reflexivity | discriminate | vm_compute; reflexivity].
Defined.

(** ** The normalizer *)
Section NormalizerFacts.

Lemma foldl_appendNonBlank {A} (g : A → bytes) (l : list A) out :
  foldl (λ out a, appendNonBlank out (g a)) out l
  = out ++ List.filter nonBlank (g <$> l).
Proof.
  revert out. induction l as [|a l IH]; intros out; simpl.
  - by rewrite app_nil_r.
  - rewrite IH. unfold appendNonBlank. destruct (nonBlank (g a)); [|done].
    by rewrite <- app_assoc.
Qed.

Lemma candidates_loop (rr : responseResp) :
  foldl (λ out c,
           foldl (λ out p, appendNonBlank out (candidatePart_Text p))
                 out (Parts (Content c)))
        [] (Candidates rr)
  = strategy1 rr.
Proof.
  unfold strategy1.
  rewrite (foldl_flat_map _
             (λ c, List.filter nonBlank
                     (candidatePart_Text <$> Parts (Content c)))); [done|].
  intros acc c. apply foldl_appendNonBlank.
Qed.

Lemma output_loop (rr : responseResp) :
  foldl (λ candidates it,
           if nonBlank (outputItem_Text it)
           then candidates ++ [outputItem_Text it]
           else if (0 <? length (outputItem_Content it))%nat then
             foldl (λ candidates part,
                      appendNonBlank candidates (contentPart_Text part))
                   candidates (outputItem_Content it)
           else candidates)
        [] (Output rr)
  = strategy3 rr.
Proof.
  unfold strategy3.
  rewrite (foldl_flat_map _
             (λ it, if nonBlank (outputItem_Text it)
                    then [outputItem_Text it]
                    else List.filter nonBlank
                           (contentPart_Text <$> outputItem_Content it)));
    [done|].
  intros acc it. destruct (nonBlank (outputItem_Text it)); [done|].
  destruct (outputItem_Content it) as [|part parts] eqn:Hc.
  - simpl. by rewrite app_nil_r.
  - change (0 <? length (part :: parts))%nat with true. cbv iota.
    apply foldl_appendNonBlank.
Qed.

Lemma extractCandidates_spec (rr : responseResp) :
  extractCandidates rr = firstNonEmpty [strategy1 rr; strategy2 rr].
Proof.
  unfold extractCandidates. rewrite candidates_loop.
  unfold firstNonEmpty, strategy2. simpl.
  destruct (strategy1 rr) as [|c cs]; simpl; [|done].
  by destruct (OutputText rr).
Qed.

Lemma callCandidates_spec (rr : responseResp) :
  callCandidates rr
  = firstNonEmpty [strategy1 rr; strategy2 rr; strategy3 rr].
Proof.
  unfold callCandidates. rewrite extractCandidates_spec.
  unfold firstNonEmpty, strategy2. simpl.
  destruct (strategy1 rr) as [|c cs]; simpl; [|done].
  destruct (OutputText rr) as [|o os]; simpl; [|done].
  rewrite output_loop. by destruct (strategy3 rr).
Qed.

(** The commands of a call are the non-empty sanitized candidates. *)
Lemma callCommands_spec (candidates : list bytes) :
  callCommands candidates
  = List.filter (λ cmd, negb (isEmpty cmd))
                (sanitizeToSingleCommand <$> candidates).
Proof.
  unfold callCommands.
  rewrite (foldl_flat_map _
             (λ c, if negb (isEmpty (sanitizeToSingleCommand c))
                   then [sanitizeToSingleCommand c] else [])).
  - simpl. induction candidates as [|c cs IH]; simpl; [done|].
    destruct (negb (isEmpty (sanitizeToSingleCommand c))); simpl; by rewrite IH.
  - intros acc c. destruct (negb _); [done | by rewrite app_nil_r].
Qed.

Lemma sanitize_trimmedLine (s : bytes) : trimmedLine (sanitizeToSingleCommand s).
Proof.
  split; [apply sanitize_singleLine|].
  unfold sanitizeToSingleCommand. apply TrimSpace_idempotent.
Qed.

Lemma callCommands_trimmedLine (candidates : list bytes) :
  Forall trimmedLine (callCommands candidates).
Proof.
  rewrite callCommands_spec, Forall_forall. intros cmd Hin.
  apply list_elem_of_In, filter_In in Hin as [Hin _].
  apply list_elem_of_In, list_elem_of_fmap in Hin as (c & -> & _).
  apply sanitize_trimmedLine.
Qed.

Lemma makeAPICall_trimmedLine verbose c :
  Forall trimmedLine (Commands (result (makeAPICall verbose c))).
Proof.
  unfold makeAPICall. destruct (outcome c) as [e|status body decode];
    [constructor|].
  destruct (400 <=? status); [constructor|].
  destruct decode; [constructor|]. apply callCommands_trimmedLine.
Qed.

Lemma getCommands_trimmedLine verbose (completed : list call) :
  Forall (λ r, Forall trimmedLine (Commands r))
         (getCommands verbose completed).1.
Proof.
  assert (Forall (λ r, Forall trimmedLine (Commands r))
                 (result ∘ makeAPICall verbose <$> completed)) as Hall.
  { apply Forall_fmap, Forall_forall. intros c _. apply makeAPICall_trimmedLine. }
  destruct (firstFailure (makeAPICall verbose <$> completed)) as [e|] eqn:H.
  - rewrite (getCommands_failure _ _ _ H). constructor.
  - rewrite (getCommands_success _ _ H). constructor; [|done]. simpl.
    apply Forall_forall. intros cmd Hin.
    apply (proj1 (elem_of_keepFirst _ _)) in Hin. unfold allCommands in Hin.
    apply list_elem_of_In, in_concat in Hin as (cmds & Hcmds & Hcmd).
    apply list_elem_of_In in Hcmd.
    apply list_elem_of_In, list_elem_of_fmap in Hcmds as (r & -> & Hr).
    rewrite Forall_forall in Hall. specialize (Hall r Hr).
    rewrite Forall_forall in Hall. by apply Hall.
Qed.

End NormalizerFacts.

(** C10.  For every input the sanitizer's output holds no line feed and
    equals its own white-space trim; hence every command of a per-call or
    aggregated command list is a single trimmed line. *)
Theorem sanitize_single_trimmed_line (s : bytes) :
  (LF ∉ sanitizeToSingleCommand s)
  ∧ TrimSpace (sanitizeToSingleCommand s) = sanitizeToSingleCommand s
  ∧ ∀ verbose (completed : list call),
      Forall (λ r, Forall (λ cmd, (LF ∉ cmd) ∧ TrimSpace cmd = cmd) (Commands r))
             (getCommands verbose completed).1.
Proof.
  split; [apply sanitize_singleLine|].
  split; [apply sanitize_trimmedLine|].
  apply getCommands_trimmedLine.
Qed.

(** C5, as amended.  The strategies are tried in priority order and the
    first one that yields a candidate at all wins, the later ones adding
    nothing; strategy 2 yields the output text whenever it is not the empty
    string, blank or not.  In particular, when the candidates collection has
    a non-blank part text, the result is what strategy 1 yields, and the
    output text is ignored. *)
Theorem first_yielding_strategy_wins (rr : responseResp) :
  extractCandidates rr = firstNonEmpty [strategy1 rr; strategy2 rr]
  ∧ callCandidates rr
    = firstNonEmpty [strategy1 rr; strategy2 rr; strategy3 rr]
  ∧ (strategy1 rr ≠ [] →
     Forall (λ c, nonBlank c = true) (strategy1 rr)
     ∧ extractCandidates rr = strategy1 rr
     ∧ callCandidates rr = strategy1 rr).
Proof.
  split; [apply extractCandidates_spec|].
  split; [apply callCandidates_spec|].
  intros Hne. split.
  - apply Forall_forall. intros c Hin. unfold strategy1 in Hin.
    apply list_elem_of_In, in_flat_map in Hin as (cand & _ & Hin).
    by apply filter_In in Hin as [_ ?].
  - rewrite extractCandidates_spec, callCandidates_spec.
    unfold firstNonEmpty. simpl. by destruct (strategy1 rr).
Qed.

Lemma first_yielding_strategy_wins_witness :
  strategy1 bothResponse ≠ []
  ∧ OutputText bothResponse ≠ []
  ∧ callCandidates bothResponse = strategy1 bothResponse
  ∧ callCandidates bothResponse = [str "ls -la"].
Proof.
  assert (strategy1 bothResponse ≠ []) as H by (vm_compute; discriminate).
  split; [exact H|]. split; [vm_compute; discriminate|].
  split; [|vm_compute; reflexivity].
  exact (proj2 (proj2 (proj2 (proj2 (first_yielding_strategy_wins bothResponse)) H))).
Defined.

(** C5, as stated, fails: with an output text of one space, no strategy
    before the third yields a non-blank candidate and the third yields
    [ls], but the blank output text is the only candidate kept, and no
    command comes out of it. *)
Lemma blank_output_text_shadows_output_items :
  firstWithNonBlank [strategy1 blankTextResponse; strategy2 blankTextResponse;
                     strategy3 blankTextResponse] = [str "ls"]
  ∧ extractCandidates blankTextResponse = [str " "]
  ∧ callCandidates blankTextResponse = [str " "]
  ∧ callCandidates blankTextResponse
    ≠ firstWithNonBlank [strategy1 blankTextResponse;
                         strategy2 blankTextResponse;
                         strategy3 blankTextResponse]
  ∧ callCommands (callCandidates blankTextResponse) = [].
Proof. repeat split; vm_compute; (reflexivity || discriminate). Qed.

(** ** The program *)
Section CliFacts.

(** Over arguments that are all words the flag loop runs to the end,
    and [taskStart] is left at the index of the last one. *)
Lemma flagLoop_words (rest : list bytes) (i : nat) (f : flags) :
  Forall isWord rest → rest ≠ [] →
  flagLoop i rest f
  = inr {| verbose := verbose f; numCommands := numCommands f;
           taskStart := i + length rest - 1 |}.
Proof.
  revert i f. induction rest as [|arg rest IH]; intros i f Hw Hne; [done|].
  apply Forall_cons in Hw as [[Hv Hn] Hw]. simpl.
  rewrite (bool_decide_eq_false_2 _ Hv), (bool_decide_eq_false_2 _ Hn).
  destruct rest as [|arg' rest'].
  - simpl. do 2 f_equal. lia.
  - rewrite IH by done. simpl. do 2 f_equal. lia.
Qed.

Lemma Join_singleton (e sep : bytes) : Join [e] sep = e.
Proof. done. Qed.

(** An invocation with words only: the task is the last word alone. *)
Lemma words_only_task (prog : bytes) (words : list bytes) (final : bytes) :
  Forall isWord (words ++ [final]) →
  ∃ f, parseArgs (prog :: words ++ [final]) = inr f
       ∧ taskOf (prog :: words ++ [final]) f = final.
Proof.
  intros Hw. unfold parseArgs, taskOf.
  replace (length (prog :: words ++ [final]) <? 2)%nat with false
    by (symmetry; apply Nat.ltb_ge; simpl; rewrite length_app; simpl; lia).
  change (drop 1 (prog :: words ++ [final])) with (words ++ [final]).
  rewrite flagLoop_words by (done || by destruct words).
  cbn [taskStart].
  replace (length (prog :: words ++ [final]) <=? 1 + length (words ++ [final]) - 1)%nat
    with false
    by (symmetry; apply Nat.leb_gt; simpl; rewrite length_app; simpl; lia).
  eexists. split; [done|]. cbn [taskStart].
  replace (1 + length (words ++ [final]) - 1)%nat with (S (length words))
    by (rewrite length_app; simpl; lia).
  simpl. by rewrite drop_app_length.
Qed.

(** A usage error ends the program with exit code 2 before anything
    else happens. *)
Lemma usage_error_exit (w : world) msg :
  parseArgs (Args w) = inl msg → main w = ([Stderr msg], 2).
Proof. unfold main. by intros ->. Qed.

Lemma fails_false_cause c : fails c = false → cause c = None.
Proof.
  intros Hf. destruct (cause c) eqn:Hc; [|done].
  assert (fails c = true) by (apply cause_fails; by eexists). congruence.
Qed.

(** A failing call ends the program on a single error line and exit
    code 1. *)
Lemma api_failure_exit (w : world) (f : flags) e :
  parseArgs (Args w) = inr f →
  OPENAI_TOKEN w ≠ [] →
  firstFailure
    (makeAPICall (verbose f) <$>
       network w (OPENAI_TOKEN w)
         (buildPrompt (taskOf (Args w) f) (context w))
         (verbose f) (numCommands f)) = Some e →
  main w
  = ([BuildPrompt (taskOf (Args w) f);
      Request (buildPrompt (taskOf (Args w) f) (context w))
              (verbose f) (numCommands f);
      StderrError (str "API error:") e], 1).
Proof.
  intros Hargs Htoken Hff.
  assert (isEmpty (OPENAI_TOKEN w) = false) as Hset
    by (by destruct (OPENAI_TOKEN w)).
  unfold main. by rewrite Hargs, Hset, (getCommands_failure _ _ _ Hff).
Qed.

End CliFacts.

(** C1.  The code does not do what the claim says: with the arguments of
    the program's own usage example, [ai find biggest file here], the task
    handed to the prompt builder is [here], the last word alone, not the
    words joined by spaces; and with a flag after the words the program
    ends on the usage error although words were given. *)
Theorem task_is_the_last_word_only :
  (∃ f, parseArgs [str "ai"; str "find"; str "biggest"; str "file"; str "here"]
          = inr f
        ∧ taskStart f = 4%nat
        ∧ taskOf [str "ai"; str "find"; str "biggest"; str "file"; str "here"] f
          = str "here")
  ∧ head (main (sampleWorld
                  [str "ai"; str "find"; str "biggest"; str "file"; str "here"]
                  [])).1
    = Some (BuildPrompt (str "here"))
  ∧ Join [str "find"; str "biggest"; str "file"; str "here"] (str " ")
    = str "find biggest file here"
  ∧ main (sampleWorld [str "ai"; str "list"; str "files"; str "-v"] [])
    = ([Stderr usageShort], 2).
Proof.
  split; [eexists; repeat split; vm_compute; reflexivity|].
  repeat split; vm_compute; reflexivity.
Qed.

(** C8.  If all the calls succeed but no sanitized command comes out of
    them, the aggregated result has an empty command list, and the program
    prints [No commands generated] and exits with code 1, having selected
    and executed nothing. *)
Theorem no_commands_generated (w : world) (f : flags) :
  parseArgs (Args w) = inr f →
  OPENAI_TOKEN w ≠ [] →
  let task := taskOf (Args w) f in
  let prompt := buildPrompt task (context w) in
  let calls := network w (OPENAI_TOKEN w) prompt (verbose f) (numCommands f) in
  Forall (λ c, fails c = false) calls →
  allCommands (result ∘ makeAPICall (verbose f) <$> calls) = [] →
  succeeded (getCommands (verbose f) calls)
  ∧ aggregated (getCommands (verbose f) calls) = []
  ∧ main w = ([BuildPrompt task; Request prompt (verbose f) (numCommands f);
               Stderr (str "No commands generated")], 1)
  ∧ ∀ cmd, Exec cmd ∉ (main w).1.
Proof.
  intros Hargs Htoken task prompt calls. subst calls prompt task.
  intros Hok Hnone.
  set (task := taskOf (Args w) f) in *.
  set (prompt := buildPrompt task (context w)) in *.
  set (calls := network w (OPENAI_TOKEN w) prompt (verbose f) (numCommands f)) in *.
  assert (isEmpty (OPENAI_TOKEN w) = false) as Hset
    by (by destruct (OPENAI_TOKEN w)).
  assert (firstFailure (makeAPICall (verbose f) <$> calls) = None) as Hff.
  { apply firstFailure_None, Forall_fmap. eapply Forall_impl; [exact Hok|].
    intros c Hc. simpl. rewrite makeAPICall_err. by apply fails_false_cause. }
  assert (main w = ([BuildPrompt task; Request prompt (verbose f) (numCommands f);
                     Stderr (str "No commands generated")], 1)) as Hmain.
  { unfold main. rewrite Hargs, Hset. fold task prompt calls.
    by rewrite (getCommands_success _ _ Hff), Hnone. }
  split; [by apply getCommands_succeeded|].
  split; [by rewrite (getCommands_success _ _ Hff), Hnone|].
  split; [done|].
  intros cmd. rewrite Hmain. simpl. rewrite !elem_of_cons.
  intros [?|[?|[?|?%elem_of_nil]]]; done.
Qed.

(** Two calls that both succeed and sanitize to nothing. *)
Lemma no_commands_generated_witness :
  main (sampleWorld [str "ai"; str "-n"; str "2"; str "list"]
          [answered 200 (str "  ") 5;
           answered 200 (str "```" ++ [LF; LF] ++ str "```") 7])
  = ([BuildPrompt (str "list");
      Request (buildPrompt (str "list")
                 [(str "shell", str "/bin/sh"); (str "os", str "linux")])
              false 2;
      Stderr (str "No commands generated")], 1).
Proof.
  refine (proj1 (proj2 (proj2
    (no_commands_generated
       (sampleWorld [str "ai"; str "-n"; str "2"; str "list"]
          [answered 200 (str "  ") 5;
           answered 200 (str "```" ++ [LF; LF] ++ str "```") 7])
       {| verbose := false; numCommands := 2; taskStart := 3 |}
       _ _ _ _)))).
  - vm_compute; reflexivity.
  - discriminate.
  - repeat constructor.
  - vm_compute; reflexivity.
Defined.

(** * Further properties of the code *)

(** ** Flags *)
Section FlagFacts.

Lemma Atoi_range (s : bytes) n : Atoi s = Some n → minInt64 ≤ n ≤ maxInt64.
Proof.
  unfold Atoi.
  destruct (match s with
            | [] => (false, s)
            | c :: r => if Ascii.eqb c "-" then (true, r)
                        else if Ascii.eqb c "+" then (false, r) else (false, s)
            end) as [neg ds].
  destruct ds as [|d ds]; [done|].
  destruct (digitsValue 0 (d :: ds)) as [v|]; [|done]. cbn [mbind option_bind].
  destruct (inInt64 (if neg then - v else v)) eqn:Hin; [|done].
  intros [= <-]. unfold inInt64 in Hin.
  apply andb_true_iff in Hin as [?%Z.leb_le ?%Z.leb_le]. done.
Qed.

(** What the flag loop leaves in its variables when it runs to the end of
    [rest = os.Args[i:]]. *)
Lemma flagLoop_inr (rest : list bytes) (i : nat) (f f' : flags) :
  flagLoop i rest f = inr f' →
  (verbose f' = true ↔ verbose f = true ∨ str "-v" ∈ rest)
  ∧ (1 ≤ numCommands f ≤ maxInt64 → 1 ≤ numCommands f' ≤ maxInt64)
  ∧ (str "-n" ∉ rest → numCommands f' = numCommands f)
  ∧ (rest = [] → taskStart f' = taskStart f)
  ∧ (rest ≠ [] →
     taskStart f' = (i + length rest)%nat
     ∨ (taskStart f' = (i + length rest - 1)%nat
        ∧ ∃ w, last rest = Some w ∧ isWord w)).
Proof.
  assert (∃ n, length rest ≤ n)%nat as [n Hle] by (by eexists).
  revert rest i f Hle.
  induction n as [n IH] using lt_wf_ind. intros rest i f Hle.
  destruct rest as [|arg rest']; simpl.
  { intros [= <-]. repeat split; (done || tauto || by intros [?|?%elem_of_nil]). }
  simpl in Hle. case_bool_decide as Hv.
  { (* -v *)
    subst arg. intros Hloop.
    destruct (IH (length rest') ltac:(lia) rest' _ _ (le_n _) Hloop)
      as (Hverb & Hnum & Hsame & Hnil & Hcons). simpl in *.
    split; [split; [intros _; right; apply elem_of_cons; auto | intros _; tauto]|].
    split; [done|]. split; [intros Hn; apply Hsame; intros ?; apply Hn, elem_of_cons; auto|].
    split; [done|]. intros _. destruct rest' as [|a rest''].
    - left. rewrite Hnil by done. simpl. lia.
    - destruct Hcons as [->|[-> Hw]]; [done | left; simpl; lia | right].
      split; [simpl; lia|]. by rewrite last_cons_cons. }
  case_bool_decide as Hnflag.
  { (* -n *)
    subst arg. destruct rest' as [|number rest'']; [done|].
    destruct (Atoi number) as [k|] eqn:Hk; [|done].
    destruct (Z.ltb_spec k 1) as [?|Hk1]; [done|]. intros Hloop. simpl in Hle.
    destruct (IH (length rest'') ltac:(lia) rest'' _ _ (le_n _) Hloop)
      as (Hverb & Hnum & Hsame & Hnil & Hcons). simpl in *.
    assert (number ≠ str "-v") as Hnv by (intros ->; vm_compute in Hk; done).
    split.
    { rewrite Hverb, !elem_of_cons. split; [tauto|].
      intros [?|[?|[?|?]]]; (tauto || done). }
    split. { intros _. apply Hnum. pose proof (Atoi_range _ _ Hk). lia. }
    split. { intros Hn. exfalso. apply Hn, elem_of_cons. auto. }
    split; [done|]. intros _. destruct rest'' as [|a rest3].
    - left. rewrite Hnil by done. simpl. lia.
    - destruct Hcons as [->|[-> Hw]]; [done | left; simpl; lia | right].
      split; [simpl; lia|]. by rewrite !last_cons_cons. }
  (* a word *)
  intros Hloop.
  destruct (IH (length rest') ltac:(lia) rest' _ _ (le_n _) Hloop)
    as (Hverb & Hnum & Hsame & Hnil & Hcons). simpl in *.
  split. { rewrite Hverb, elem_of_cons. split; [tauto|]. intros [?|[?|?]]; (tauto || done). }
  split; [done|].
  split. { intros Hn. apply Hsame. intros ?. apply Hn, elem_of_cons. auto. }
  split; [done|]. intros _. destruct rest' as [|a rest''].
  - right. rewrite Hnil by done. simpl. split; [lia|]. by exists arg.
  - destruct Hcons as [->|[-> Hw]]; [done | left; simpl; lia | right].
    split; [simpl; lia|]. by rewrite last_cons_cons.
Qed.

End FlagFacts.

(** ** More on the sanitizer *)
Section SanitizerSlices.

Lemma sliceOf_refl (s : bytes) : sliceOf s s.
Proof. exists [], []. by rewrite app_nil_r. Qed.

Lemma sliceOf_trans (a b c : bytes) : sliceOf a b → sliceOf b c → sliceOf a c.
Proof.
  intros (l1 & r1 & ->) (l2 & r2 & ->). exists (l2 ++ l1), (r1 ++ r2).
  by rewrite <- !app_assoc.
Qed.

Lemma sliceOf_prefix (a b : bytes) : a `prefix_of` b → sliceOf a b.
Proof. intros [k ->]. by exists [], k. Qed.

Lemma sliceOf_suffix (a b : bytes) : a `suffix_of` b → sliceOf a b.
Proof. intros [k ->]. exists k, []. by rewrite app_nil_r. Qed.

Lemma sliceOf_cons (a b : bytes) c : sliceOf a b → sliceOf a (c :: b).
Proof. intros (l & r & ->). by exists (c :: l), r. Qed.

Lemma TrimSpace_sliceOf (s : bytes) : sliceOf (TrimSpace s) s.
Proof. apply TrimSpace_slice. Qed.

Lemma TrimPrefix_sliceOf (s p : bytes) : sliceOf (TrimPrefix s p) s.
Proof.
  unfold TrimPrefix. destruct (HasPrefix s p); [|apply sliceOf_refl].
  apply sliceOf_suffix, suffix_drop.
Qed.

Lemma lazyUntil_prefix (close s g : bytes) :
  lazyUntil close s = Some g → g `prefix_of` s.
Proof.
  revert g. induction s as [|c s IH]; intros g; simpl.
  - destruct (HasPrefix [] close); [|done]. intros [= <-]. apply prefix_nil.
  - destruct (HasPrefix (c :: s) close); [intros [= <-]; apply prefix_nil|].
    destruct (lazyUntil close s) as [g'|]; [|done]. simpl.
    intros [= <-]. by apply prefix_cons, IH.
Qed.

Lemma codeBlockAt_sliceOf (s g : bytes) : codeBlockAt s = Some g → sliceOf g s.
Proof.
  unfold codeBlockAt.
  destruct (stripPrefix fence s) as [r|] eqn:Hr; [|done].
  apply stripPrefix_Some in Hr as ->. cbn [mbind option_bind].
  intros (tag & _ & Htag)%firstSome_Some.
  destruct (stripPrefix (tag ++ [LF]) r) as [body|] eqn:Hb; [|done].
  apply stripPrefix_Some in Hb as ->. cbn [mbind option_bind] in Htag.
  apply lazyUntil_prefix in Htag as [k ->].
  exists (fence ++ tag ++ [LF]), k. by rewrite <- !app_assoc.
Qed.

Lemma codeBlockRe_sliceOf (s g : bytes) :
  codeBlockRe_FindStringSubmatch s = Some g → sliceOf g s.
Proof.
  induction s as [|c s IH]; simpl.
  - done.
  - destruct (codeBlockAt (c :: s)) eqn:Hc.
    + intros [= <-]. by apply codeBlockAt_sliceOf.
    + intros H. by apply sliceOf_cons, IH.
Qed.

Lemma takeWhile_prefix {A} (p : A → bool) (l : list A) :
  takeWhile p l `prefix_of` l.
Proof.
  induction l as [|a l IH]; simpl; [done|].
  destruct (p a); [by apply prefix_cons | apply prefix_nil].
Qed.

Lemma firstLineFrom_sliceOf bol (s : bytes) : sliceOf (firstLineFrom bol s) s.
Proof.
  revert bol. induction s as [|c s IH]; intros bol; simpl; [apply sliceOf_refl|].
  destruct (bol && lineStarter c).
  - apply sliceOf_prefix. apply (takeWhile_prefix notLF (c :: s)).
  - apply sliceOf_cons, IH.
Qed.

Lemma sliceTo_sliceOf (s : bytes) i : sliceOf (sliceTo s i) s.
Proof. apply sliceOf_prefix, prefix_take. Qed.

End SanitizerSlices.

(** X1.  The sanitizer only cuts: its output is a contiguous piece of the
    candidate text it is given. *)
Theorem sanitize_is_slice (s : bytes) : sliceOf (sanitizeToSingleCommand s) s.
Proof.
  unfold sanitizeToSingleCommand.
  eapply sliceOf_trans; [apply TrimSpace_sliceOf|].
  eapply sliceOf_trans; [apply TrimPrefix_sliceOf|].
  eapply sliceOf_trans; [apply TrimPrefix_sliceOf|].
  set (t1 := TrimSpace s).
  set (t2 := match codeBlockRe_FindStringSubmatch t1 with
             | Some m1 => TrimSpace m1
             | None => t1
             end).
  set (t3 := if negb (isEmpty (firstLineRe_FindString t2))
             then TrimSpace (firstLineRe_FindString t2) else t2).
  assert (sliceOf t2 s) as H2.
  { unfold t2. destruct (codeBlockRe_FindStringSubmatch t1) as [m1|] eqn:Hm.
    - eapply sliceOf_trans; [apply TrimSpace_sliceOf|].
      eapply sliceOf_trans; [by apply codeBlockRe_sliceOf|].
      apply TrimSpace_sliceOf.
    - apply TrimSpace_sliceOf. }
  assert (sliceOf t3 s) as H3.
  { unfold t3. destruct (negb _); [|done].
    eapply sliceOf_trans; [apply TrimSpace_sliceOf|].
    eapply sliceOf_trans; [apply firstLineFrom_sliceOf | done]. }
  destruct (0 <=? IndexByte t3 LF); [|done].
  eapply sliceOf_trans; [apply TrimSpace_sliceOf|].
  eapply sliceOf_trans; [apply sliceTo_sliceOf | done].
Qed.

(** X2.  On a single trimmed line the sanitizer does nothing but strip a
    leading [$ ], then a leading [> ], and trim what is left. *)
Theorem sanitize_single_line (x : bytes) :
  LF ∉ x → TrimSpace x = x →
  sanitizeToSingleCommand x
  = TrimSpace (TrimPrefix (TrimPrefix x (str "$ ")) (str "> ")).
Proof.
  intros Hline Htrim. unfold sanitizeToSingleCommand.
  rewrite Htrim, (codeBlockRe_singleLine x Hline).
  assert ((if negb (isEmpty (firstLineRe_FindString x))
           then TrimSpace (firstLineRe_FindString x) else x) = x) as ->.
  { destruct (firstLineRe_singleLine x Hline) as [-> | ->]; [|done].
    rewrite Htrim. by destruct (negb _). }
  apply IndexByte_absent in Hline.
  by destruct (Z.leb_spec 0 (IndexByte x LF)) as [?|_]; [lia|].
Qed.

Lemma sanitize_single_line_witness :
  sanitizeToSingleCommand (str "> $ du -sh .")
  = TrimSpace (TrimPrefix (TrimPrefix (str "> $ du -sh .") (str "$ ")) (str "> ")).
Proof.
  apply sanitize_single_line; [|vm_compute; reflexivity].
  apply IndexByte_absent. vm_compute. reflexivity.
Defined.

(** X3.  A blank candidate (empty, or white space only) is rejected: it
    sanitizes to the empty string and adds no command to a call's list. *)
Theorem blank_candidate_rejected (s : bytes) (candidates : list bytes) :
  nonBlank s = false →
  sanitizeToSingleCommand s = []
  ∧ callCommands (candidates ++ [s]) = callCommands candidates.
Proof.
  intros Hblank.
  assert (sanitizeToSingleCommand s = []) as Hs.
  { unfold nonBlank in Hblank. unfold sanitizeToSingleCommand.
    destruct (TrimSpace s); [|done]. vm_compute. reflexivity. }
  split; [done|].
  rewrite !callCommands_spec, fmap_app, List.filter_app. simpl. rewrite Hs. simpl.
  by rewrite app_nil_r.
Qed.

Lemma blank_candidate_rejected_witness :
  sanitizeToSingleCommand ([LF] ++ str "  " ++ [byte 0xC2; byte 0xA0]) = []
  ∧ callCommands ([str "ls"] ++ [[LF] ++ str "  " ++ [byte 0xC2; byte 0xA0]])
    = callCommands [str "ls"].
Proof.
  apply blank_candidate_rejected. vm_compute. reflexivity.
Defined.

(** ** More on the normalizer and the coordinator *)
Section AggregationFacts.

Lemma nonBlank_nonempty (s : bytes) : nonBlank s = true → s ≠ [].
Proof. by intros H ->. Qed.

Lemma strategy1_nonBlank (rr : responseResp) :
  Forall (λ c, nonBlank c = true) (strategy1 rr).
Proof.
  apply Forall_forall. intros c Hin. unfold strategy1 in Hin.
  apply list_elem_of_In, in_flat_map in Hin as (cand & _ & Hin).
  by apply filter_In in Hin as [_ ?].
Qed.

Lemma strategy3_nonBlank (rr : responseResp) :
  Forall (λ c, nonBlank c = true) (strategy3 rr).
Proof.
  apply Forall_forall. intros c Hin. unfold strategy3 in Hin.
  apply list_elem_of_In, in_flat_map in Hin as (it & _ & Hin).
  destruct (nonBlank (outputItem_Text it)) eqn:Hit.
  - simpl in Hin. by destruct Hin as [<-|[]].
  - by apply filter_In in Hin as [_ ?].
Qed.

Lemma elem_of_allCommands (rs : list apiCallResult) x :
  x ∈ allCommands rs ↔ ∃ r, r ∈ rs ∧ x ∈ Commands r.
Proof.
  unfold allCommands. rewrite list_elem_of_In, in_concat. split.
  - intros (cmds & Hcmds & Hx).
    apply list_elem_of_In, list_elem_of_fmap in Hcmds as (r & -> & Hr).
    exists r. split; [done | by apply list_elem_of_In].
  - intros (r & Hr & Hx). exists (Commands r).
    split; [|by apply list_elem_of_In].
    apply list_elem_of_In, list_elem_of_fmap. by exists r.
Qed.

Lemma callCommands_nonempty (candidates : list bytes) :
  Forall (λ cmd, cmd ≠ []) (callCommands candidates).
Proof.
  rewrite callCommands_spec, Forall_forall. intros cmd Hin.
  apply list_elem_of_In, filter_In in Hin as [_ Hne]. by destruct cmd.
Qed.

Lemma makeAPICall_nonempty verbose c :
  Forall (λ cmd, cmd ≠ []) (Commands (result (makeAPICall verbose c))).
Proof.
  unfold makeAPICall. destruct (outcome c) as [e|status body decode];
    [constructor|].
  destruct (400 <=? status); [constructor|].
  destruct decode; [constructor|]. apply callCommands_nonempty.
Qed.

Lemma keepFirst_NoDup (l : list bytes) : NoDup l → keepFirst l = l.
Proof.
  induction 1 as [|x l Hx Hl IH]; simpl; [done|]. rewrite IH. f_equal.
  clear IH Hl. induction l as [|y l IH]; [done|].
  apply not_elem_of_cons in Hx as [Hxy Hx].
  rewrite filter_cons_True by done. by rewrite IH.
Qed.

(** The verbose flag changes nothing in a call's result but the raw
    response it keeps. *)
Lemma makeAPICall_verbose c :
  err (makeAPICall true c) = err (makeAPICall false c)
  ∧ Commands (result (makeAPICall true c)) = Commands (result (makeAPICall false c))
  ∧ RawResponse (result (makeAPICall false c)) = [].
Proof.
  unfold makeAPICall. destruct (outcome c) as [e|status body decode]; [done|].
  destruct (400 <=? status); [done|]. by destruct decode.
Qed.

End AggregationFacts.

(** X4.  No candidate the normalizer hands on is the empty string, whatever
    the decoded response holds. *)
Theorem candidates_nonempty (rr : responseResp) :
  Forall (λ c, c ≠ []) (extractCandidates rr)
  ∧ Forall (λ c, c ≠ []) (callCandidates rr).
Proof.
  assert (∀ l : list bytes, Forall (λ c, nonBlank c = true) l →
                            Forall (λ c, c ≠ []) l) as Hnb.
  { intros l Hl. eapply Forall_impl; [exact Hl|]. intros c. apply nonBlank_nonempty. }
  pose proof (Hnb _ (strategy1_nonBlank rr)) as H1.
  pose proof (Hnb _ (strategy3_nonBlank rr)) as H3.
  assert (Forall (λ c, c ≠ []) (strategy2 rr)) as H2.
  { unfold strategy2. destruct (OutputText rr); repeat constructor. done. }
  rewrite extractCandidates_spec, callCandidates_spec. unfold firstNonEmpty.
  simpl. split; repeat case_bool_decide; simpl; (done || constructor).
Qed.

Lemma getCommands_nonempty verbose (completed : list call) :
  Forall (λ r, Forall (λ cmd, cmd ≠ []) (Commands r))
         (getCommands verbose completed).1.
Proof.
  assert (Forall (λ r, Forall (λ cmd, cmd ≠ []) (Commands r))
                 (result ∘ makeAPICall verbose <$> completed)) as Hall.
  { apply Forall_fmap, Forall_forall. intros c _. apply makeAPICall_nonempty. }
  destruct (firstFailure (makeAPICall verbose <$> completed)) as [e|] eqn:H.
  - rewrite (getCommands_failure _ _ _ H). constructor.
  - rewrite (getCommands_success _ _ H). constructor; [|done]. simpl.
    apply Forall_forall. intros cmd Hin.
    apply (proj1 (elem_of_keepFirst _ _)) in Hin.
    apply elem_of_allCommands in Hin as (r & Hr & Hcmd).
    rewrite Forall_forall in Hall. specialize (Hall r Hr).
    rewrite Forall_forall in Hall. by apply Hall.
Qed.

(** X5.  No command list that [getCommands] returns, per call or
    aggregated, holds the empty string. *)
Theorem no_empty_command verbose (completed : list call) :
  Forall (λ r, Forall (λ cmd, cmd ≠ []) (Commands r))
         (getCommands verbose completed).1.
Proof. apply getCommands_nonempty. Qed.

(** X6.  On success the aggregated list holds exactly the commands of the
    calls: none is lost, none is added. *)
Theorem aggregated_membership verbose (completed : list call) (cmd : bytes) :
  succeeded (getCommands verbose completed) →
  cmd ∈ aggregated (getCommands verbose completed)
  ↔ ∃ c, c ∈ completed ∧ cmd ∈ Commands (result (makeAPICall verbose c)).
Proof.
  intros Hok%getCommands_succeeded. rewrite (getCommands_success _ _ Hok).
  unfold aggregated. simpl. rewrite elem_of_keepFirst, elem_of_allCommands.
  split.
  - intros (r & Hr & Hcmd). apply list_elem_of_fmap in Hr as (c & -> & Hc).
    by exists c.
  - intros (c & Hc & Hcmd). exists (result (makeAPICall verbose c)).
    split; [|done]. apply list_elem_of_fmap. by exists c.
Qed.

Lemma aggregated_membership_witness :
  str "pwd" ∈ aggregated (getCommands false
                            [answered 200 (str "ls") 5; answered 200 (str "pwd") 7])
  ↔ ∃ c, c ∈ [answered 200 (str "ls") 5; answered 200 (str "pwd") 7]
         ∧ str "pwd" ∈ Commands (result (makeAPICall false c)).
Proof.
  apply aggregated_membership. vm_compute. reflexivity.
Defined.

(** X7.  On success the aggregated list is the plain concatenation of the
    per-call lists, in completion order, exactly when no command occurs
    twice in them. *)
Theorem aggregated_is_concatenation verbose (completed : list call) :
  succeeded (getCommands verbose completed) →
  aggregated (getCommands verbose completed)
  = allCommands (result ∘ makeAPICall verbose <$> completed)
  ↔ NoDup (allCommands (result ∘ makeAPICall verbose <$> completed)).
Proof.
  intros Hok%getCommands_succeeded. rewrite (getCommands_success _ _ Hok).
  unfold aggregated. simpl. split.
  - intros <-. apply NoDup_keepFirst.
  - apply keepFirst_NoDup.
Qed.

Lemma aggregated_is_concatenation_witness :
  aggregated (getCommands false
                [answeredParts [str "ls"; str "du"] 5; answered 200 (str "pwd") 7])
  = allCommands (result ∘ makeAPICall false <$>
                   [answeredParts [str "ls"; str "du"] 5; answered 200 (str "pwd") 7])
  ↔ NoDup (allCommands (result ∘ makeAPICall false <$>
                   [answeredParts [str "ls"; str "du"] 5; answered 200 (str "pwd") 7])).
Proof.
  apply aggregated_is_concatenation. vm_compute. reflexivity.
Defined.

(** X8.  The operation succeeds exactly when no call fails, and then it
    returns the aggregated result followed by one result per call, in
    completion order. *)
Theorem success_iff_no_failure verbose (completed : list call) :
  (succeeded (getCommands verbose completed)
   ↔ Forall (λ c, fails c = false) completed)
  ∧ (succeeded (getCommands verbose completed) →
     ∃ combined,
       (getCommands verbose completed).1
       = combined :: (result ∘ makeAPICall verbose <$> completed)
       ∧ RawResponse combined = [] ∧ Error combined = None).
Proof.
  split.
  - rewrite getCommands_succeeded, firstFailure_None, Forall_fmap.
    apply Forall_iff. intros c. simpl. rewrite makeAPICall_err. split.
    + intros Hc. destruct (fails c) eqn:Hf; [|done].
      apply cause_fails in Hf as [? ?]. congruence.
    + apply fails_false_cause.
  - intros Hok%getCommands_succeeded. rewrite (getCommands_success _ _ Hok).
    by eexists.
Qed.

Lemma success_iff_no_failure_witness :
  ∃ combined,
    (getCommands true [answered 200 (str "ls") 5; answered 204 [] 7]).1
    = combined :: (result ∘ makeAPICall true <$>
                     [answered 200 (str "ls") 5; answered 204 [] 7])
    ∧ RawResponse combined = [] ∧ Error combined = None.
Proof.
  apply (proj2 (success_iff_no_failure true
                  [answered 200 (str "ls") 5; answered 204 [] 7])).
  vm_compute. reflexivity.
Defined.

(** X9.  The verbose flag is observation only: with the same calls,
    [getCommands] returns the same error and the same command lists with
    and without it, and without it no result keeps a raw response. *)
Theorem verbose_changes_no_result (completed : list call) :
  (getCommands true completed).2 = (getCommands false completed).2
  ∧ Commands <$> (getCommands true completed).1
    = Commands <$> (getCommands false completed).1
  ∧ Forall (λ r, RawResponse r = []) (getCommands false completed).1.
Proof.
  assert (err <$> (makeAPICall true <$> completed)
          = err <$> (makeAPICall false <$> completed)) as Herr.
  { rewrite <- !list_fmap_compose. apply list_fmap_ext. intros _ c _.
    apply makeAPICall_verbose. }
  assert (Commands <$> (result ∘ makeAPICall true <$> completed)
          = Commands <$> (result ∘ makeAPICall false <$> completed)) as Hcmds.
  { rewrite <- !list_fmap_compose. apply list_fmap_ext. intros _ c _.
    apply makeAPICall_verbose. }
  assert (∀ l l' : list apiResult, err <$> l = err <$> l' →
                                   firstFailure l = firstFailure l') as Hff.
  { induction l as [|r l IH]; intros [|r' l']; simpl; try done.
    intros [= -> Hl]. by rewrite (IH _ Hl). }
  specialize (Hff _ _ Herr).
  destruct (firstFailure (makeAPICall false <$> completed)) as [e|] eqn:Hf.
  - rewrite (getCommands_failure _ _ _ Hf), (getCommands_failure _ _ _ Hff).
    repeat split. constructor.
  - rewrite (getCommands_success _ _ Hf), (getCommands_success _ _ Hff).
    cbn [fst snd]. rewrite !fmap_cons. cbn [Commands].
    unfold allCommands. rewrite Hcmds. repeat split.
    constructor; [done|]. apply Forall_fmap, Forall_forall. intros c _.
    apply makeAPICall_verbose.
Qed.

(** ** More on the command line *)
Section ParseFacts.

Lemma parseArgs_inr (args : list bytes) (f : flags) :
  parseArgs args = inr f →
  (2 ≤ length args)%nat
  ∧ (taskStart f < length args)%nat
  ∧ flagLoop 1 (drop 1 args)
      {| verbose := false; numCommands := 3; taskStart := 1 |} = inr f.
Proof.
  unfold parseArgs. destruct (Nat.ltb_spec (length args) 2); [done|].
  destruct (flagLoop _ _ _) as [msg|f0]; [done|].
  destruct (Nat.leb_spec (length args) (taskStart f0)); [done|].
  by intros [= ->].
Qed.

(** Arguments that are no [-n] never stop the flag loop. *)
Lemma flagLoop_no_count (pre rest : list bytes) (i : nat) (f : flags) :
  Forall (λ a, a ≠ str "-n") pre →
  ∃ f', flagLoop i (pre ++ rest) f = flagLoop (i + length pre) rest f'.
Proof.
  revert i f. induction pre as [|a pre IH]; intros i f Hpre.
  - exists f. simpl. by rewrite Nat.add_0_r.
  - apply Forall_cons in Hpre as [Ha Hpre]. simpl.
    rewrite (bool_decide_eq_false_2 _ Ha).
    case_bool_decide; edestruct (IH (i + 1)%nat) as [f' ->]; try done;
      exists f'; f_equal; lia.
Qed.

End ParseFacts.

Section AcceptedArguments.

Lemma accepted_task (args : list bytes) (f : flags) :
  parseArgs args = inr f →
  taskStart f = (length args - 1)%nat
  ∧ ∃ w, last args = Some w ∧ isWord w ∧ taskOf args f = w.
Proof.
  intros (Hlen & Hstart & Hloop)%parseArgs_inr.
  destruct (flagLoop_inr _ _ _ _ Hloop) as (_ & _ & _ & _ & Hcons).
  assert (length (drop 1 args) = length args - 1)%nat as Hdrop
    by apply length_drop.
  destruct Hcons as [Hall|(Hlast & w & Hw & Hword)].
  { intros Hnil. rewrite Hnil in Hdrop. simpl in Hdrop. lia. }
  { lia. }
  assert (taskStart f = length args - 1)%nat as Hts by lia.
  split; [done|]. exists w.
  apply last_Some in Hw as [pre Hpre].
  assert (args = take 1 args ++ pre ++ [w]) as Hargs
    by (by rewrite <- Hpre, take_drop).
  split; [|split; [done|]].
  - rewrite Hargs, app_assoc. apply last_snoc.
  - unfold taskOf. rewrite Hts.
    rewrite Hargs at 2. rewrite app_assoc.
    replace (length args - 1)%nat with (length (take 1 args ++ pre)).
    + by rewrite drop_app_length.
    + rewrite Hargs at 2. rewrite !length_app. simpl. lia.
Qed.

Lemma accepted_count (args : list bytes) (f : flags) :
  parseArgs args = inr f →
  1 ≤ numCommands f ≤ maxInt64
  ∧ (str "-n" ∉ drop 1 args → numCommands f = 3).
Proof.
  intros (_ & _ & Hloop)%parseArgs_inr.
  destruct (flagLoop_inr _ _ _ _ Hloop) as (_ & Hnum & Hsame & _).
  split; [apply Hnum; simpl; unfold maxInt64; lia | exact Hsame].
Qed.

Lemma accepted_verbose (args : list bytes) (f : flags) :
  parseArgs args = inr f →
  verbose f = true ↔ str "-v" ∈ drop 1 args.
Proof.
  intros (_ & _ & Hloop)%parseArgs_inr.
  destruct (flagLoop_inr _ _ _ _ Hloop) as (Hverb & _). simpl in Hverb.
  rewrite Hverb. split; [by intros [?|?] | auto].
Qed.

End AcceptedArguments.

(** X10.  Whenever the arguments are accepted, the task description is
    the last argument alone, and that argument is no flag. *)
Theorem task_is_last_argument (args : list bytes) (f : flags) :
  parseArgs args = inr f →
  taskStart f = (length args - 1)%nat
  ∧ ∃ w, last args = Some w ∧ isWord w ∧ taskOf args f = w.
Proof. apply accepted_task. Qed.

Lemma task_is_last_argument_witness :
  taskStart {| verbose := true; numCommands := 5; taskStart := 5 |} = 5%nat
  ∧ ∃ w, last [str "ai"; str "-n"; str "5"; str "-v"; str "list"; str "files"]
         = Some w
         ∧ isWord w
         ∧ taskOf [str "ai"; str "-n"; str "5"; str "-v"; str "list"; str "files"]
                  {| verbose := true; numCommands := 5; taskStart := 5 |} = w.
Proof.
  apply (task_is_last_argument
           [str "ai"; str "-n"; str "5"; str "-v"; str "list"; str "files"]).
  vm_compute. reflexivity.
Defined.

(** X11.  Whenever the arguments are accepted, the number of calls is a
    positive [int], and it is the default 3 when no [-n] was given. *)
Theorem accepted_count_is_positive (args : list bytes) (f : flags) :
  parseArgs args = inr f →
  1 ≤ numCommands f ≤ maxInt64
  ∧ (str "-n" ∉ drop 1 args → numCommands f = 3).
Proof. apply accepted_count. Qed.

Lemma accepted_count_is_positive_witness :
  1 ≤ 5 ≤ maxInt64
  ∧ (str "-n" ∉ drop 1 [str "ai"; str "-n"; str "5"; str "list"] → 5 = 3).
Proof.
  apply (accepted_count_is_positive [str "ai"; str "-n"; str "5"; str "list"]
           {| verbose := false; numCommands := 5; taskStart := 3 |}).
  vm_compute. reflexivity.
Defined.

(** X12.  Whenever the arguments are accepted, verbose mode is on exactly
    when [-v] stands among the arguments, wherever it stands. *)
Theorem verbose_iff_flag_given (args : list bytes) (f : flags) :
  parseArgs args = inr f →
  verbose f = true ↔ str "-v" ∈ drop 1 args.
Proof. apply accepted_verbose. Qed.

Lemma verbose_iff_flag_given_witness :
  true = true ↔ str "-v" ∈ drop 1 [str "ai"; str "list"; str "-v"; str "files"].
Proof.
  apply (verbose_iff_flag_given [str "ai"; str "list"; str "-v"; str "files"]
           {| verbose := true; numCommands := 3; taskStart := 3 |}).
  vm_compute. reflexivity.
Defined.

(** X13.  A [-n] that comes after arguments other than [-n] and has no
    count behind it, or a count that is no positive integer, ends the
    program on a usage error with exit code 2. *)
Theorem bad_count_is_usage_error (w : world) prog (pre rest : list bytes) :
  Args w = prog :: pre ++ str "-n" :: rest →
  Forall (λ a, a ≠ str "-n") pre →
  match rest with
  | [] => True
  | number :: _ => ∀ k, Atoi number = Some k → k < 1
  end →
  main w
  = ([Stderr (match rest with
              | [] => str "Error: -n requires a number argument"
              | _ => str "Error: -n requires a positive integer"
              end)], 2).
Proof.
  intros Hargs Hpre Hbad. apply usage_error_exit. rewrite Hargs.
  unfold parseArgs.
  replace (length (prog :: pre ++ str "-n" :: rest) <? 2)%nat with false
    by (symmetry; apply Nat.ltb_ge; simpl; rewrite length_app; simpl; lia).
  change (drop 1 (prog :: pre ++ str "-n" :: rest)) with (pre ++ str "-n" :: rest).
  destruct (flagLoop_no_count pre (str "-n" :: rest) 1
              {| verbose := false; numCommands := 3; taskStart := 1 |} Hpre)
    as [f' ->].
  simpl. destruct rest as [|number rest']; [done|].
  destruct (Atoi number) as [k|] eqn:Hk; [|done].
  specialize (Hbad k eq_refl). by destruct (Z.ltb_spec k 1); [|lia].
Qed.

Lemma bad_count_is_usage_error_witness :
  main (sampleWorld [str "ai"; str "-v"; str "list"; str "-n"; str "0"; str "files"] [])
  = ([Stderr (str "Error: -n requires a positive integer")], 2).
Proof.
  apply (bad_count_is_usage_error
           (sampleWorld [str "ai"; str "-v"; str "list"; str "-n"; str "0"; str "files"] [])
           (str "ai") [str "-v"; str "list"] [str "0"; str "files"]).
  - reflexivity.
  - repeat constructor; discriminate.
  - intros k Hk. vm_compute in Hk. injection Hk as <-. lia.
Defined.

(** ** The runs of the program *)
Section RunFacts.

(** The ways a run can go, with what it prints and how it exits. *)
Lemma main_outcome (w : world) :
  (∃ msg, main w = ([Stderr msg], 2))
  ∨ ∃ f, parseArgs (Args w) = inr f ∧ OPENAI_TOKEN w ≠ [] ∧
      let task := taskOf (Args w) f in
      let prompt := buildPrompt task (context w) in
      let r := getCommands (verbose f)
                 (network w (OPENAI_TOKEN w) prompt (verbose f) (numCommands f)) in
      let before := [BuildPrompt task; Request prompt (verbose f) (numCommands f)] in
      (∃ e, r.2 = Some e ∧ main w = (before ++ [StderrError (str "API error:") e], 1))
      ∨ (succeeded r ∧ aggregated r = []
         ∧ main w = (before ++ [Stderr (str "No commands generated")], 1))
      ∨ (succeeded r ∧ aggregated r ≠ [] ∧
         ∃ vl, (vl ≠ [] → verbose f = true) ∧
           let shown := before ++ (Verbose <$> vl) ++ [Menu (aggregated r)] in
           (selectCommand (aggregated r) (stdinLine w) = None
            ∧ main w = (shown ++ [StderrError (str "Selection error:")
                                    (LibError (str "invalid selection"))], 1))
           ∨ ∃ choice tail,
               selectCommand (aggregated r) (stdinLine w) = Some choice
               ∧ main w = (shown ++ [Stdout choice; Exec choice] ++ tail,
                           exitCodeOf (shell w choice))
               ∧ (tail = [] ∨ ∃ e, tail = [StderrError (str "Execution error:") e])).
Proof.
  unfold main. destruct (parseArgs (Args w)) as [msg|f] eqn:Hparse;
    [left; by eexists|].
  destruct (isEmpty (OPENAI_TOKEN w)) eqn:Hempty; [left; by eexists|].
  right. exists f. split; [done|]. split; [by intros Ht; rewrite Ht in Hempty|].
  cbn zeta.
  destruct (getCommands _ _) as [results [e|]] eqn:Hget.
  { left. by exists e. }
  right. unfold succeeded, aggregated. cbn [fst snd].
  destruct results as [|combined individual]; [left; done|].
  destruct (Commands combined) as [|cmd cmds] eqn:Hcmds; [left; done|].
  right. split; [done|]. split; [done|]. cbn [length Nat.eqb].
  exists (if verbose f then printVerboseOutput (combined :: individual) else []).
  split; [by destruct (verbose f)|].
  replace (if verbose f
           then Verbose <$> printVerboseOutput (combined :: individual) else [])
    with (Verbose <$> (if verbose f
                       then printVerboseOutput (combined :: individual) else []))
    by (by destruct (verbose f)).
  destruct (selectCommand (cmd :: cmds) (stdinLine w)) as [choice|]; [|by left].
  right. exists choice.
  destruct (shell w choice) as [|code|e].
  - exists []. rewrite app_nil_r. auto.
  - exists []. rewrite app_nil_r. auto.
  - exists [StderrError (str "Execution error:") e].
    rewrite <- !app_assoc. split; [done|]. split; [done|]. right. by exists e.
Qed.

Lemma not_elem_of_Verbose (ev : event) (vl : list verboseLine) :
  (∀ l, ev ≠ Verbose l) → ev ∉ Verbose <$> vl.
Proof. intros Hev (l & -> & _)%list_elem_of_fmap. by eapply Hev. Qed.

Lemma selectCommand_Some (cmds : list bytes) (line choice : bytes) :
  selectCommand cmds line = Some choice →
  ∃ idx, Atoi (TrimSpace line) = Some idx
         ∧ 1 ≤ idx ≤ Z.of_nat (length cmds)
         ∧ cmds !! Z.to_nat (idx - 1) = Some choice.
Proof.
  unfold selectCommand. destruct (Atoi (TrimSpace line)) as [idx|]; [|done].
  destruct (Z.ltb_spec idx 1); [done|].
  destruct (Z.ltb_spec (Z.of_nat (length cmds)) idx); [done|]. simpl.
  intros Hlook. exists idx. split; [done|]. split; [lia | done].
Qed.

End RunFacts.

Lemma selectCommand_iff (cmds : list bytes) (line choice : bytes) :
  selectCommand cmds line = Some choice
  ↔ ∃ idx, Atoi (TrimSpace line) = Some idx
           ∧ 1 ≤ idx ≤ Z.of_nat (length cmds)
           ∧ cmds !! Z.to_nat (idx - 1) = Some choice.
Proof.
  split; [apply selectCommand_Some|].
  intros (idx & Hidx & [Hlo Hhi] & Hlook). unfold selectCommand. rewrite Hidx.
  destruct (Z.ltb_spec idx 1); [lia|].
  by destruct (Z.ltb_spec (Z.of_nat (length cmds)) idx); [lia|].
Qed.



(** X15.  Every number from 1 to the length of the menu, with white space
    around it or not, selects the menu entry of that number. *)
Theorem selection_in_range (cmds : list bytes) (line : bytes) idx :
  Atoi (TrimSpace line) = Some idx →
  1 ≤ idx ≤ Z.of_nat (length cmds) →
  ∃ choice, cmds !! Z.to_nat (idx - 1) = Some choice
            ∧ selectCommand cmds line = Some choice.
Proof.
  intros Hidx [Hlo Hhi].
  destruct (lookup_lt_is_Some_2 cmds (Z.to_nat (idx - 1)) ltac:(lia))
    as [choice Hchoice].
  exists choice. split; [done|]. apply selectCommand_iff. by exists idx.
Qed.

Lemma selection_in_range_witness :
  ∃ choice, [str "ls"; str "pwd"; str "du"] !! Z.to_nat (2 - 1) = Some choice
            ∧ selectCommand [str "ls"; str "pwd"; str "du"] (str " 2" ++ [LF])
              = Some choice.
Proof.
  apply (selection_in_range _ _ 2); [vm_compute; reflexivity | simpl; lia].
Defined.



Section ExecutionFacts.

(** What a run has done when it has executed a command. *)
Lemma main_Exec (w : world) (cmd : bytes) :
  Exec cmd ∈ (main w).1 →
  ∃ f, parseArgs (Args w) = inr f ∧
    let r := getCommands (verbose f)
               (network w (OPENAI_TOKEN w)
                  (buildPrompt (taskOf (Args w) f) (context w))
                  (verbose f) (numCommands f)) in
    succeeded r
    ∧ selectCommand (aggregated r) (stdinLine w) = Some cmd
    ∧ Stdout cmd ∈ (main w).1
    ∧ (main w).2 = exitCodeOf (shell w cmd).
Proof.
  destruct (main_outcome w) as [[msg ->]|(f & Hparse & Htoken & Hrun)].
  { simpl. by intros [=]%list_elem_of_singleton. }
  cbn zeta in Hrun.
  destruct Hrun as [(e & _ & ->)|[(_ & _ & ->)|(Hok & _ & vl & _ & Hsel)]];
    cbn [fst].
  - rewrite !elem_of_app, ?elem_of_cons, ?list_elem_of_singleton, ?elem_of_nil.
    intros Hin; decompose [or] Hin; clear Hin; try discriminate; done.
  - rewrite !elem_of_app, ?elem_of_cons, ?list_elem_of_singleton, ?elem_of_nil.
    intros Hin; decompose [or] Hin; clear Hin; try discriminate; done.
  - cbn zeta in Hsel.
    destruct Hsel as [[_ ->]|(choice & tail & Hchoice & -> & Htail)]; cbn [fst snd].
    + rewrite !elem_of_app, ?elem_of_cons, ?list_elem_of_singleton, ?elem_of_nil.
      intros Hin; decompose [or] Hin; clear Hin; try discriminate; try done.
      by match goal with
         | H : _ ∈ Verbose <$> _ |- _ => apply not_elem_of_Verbose in H
         end.
    + intros Hin. assert (cmd = choice) as ->.
      { rewrite !elem_of_app, ?elem_of_cons, ?list_elem_of_singleton, ?elem_of_nil in Hin.
        decompose [or] Hin; clear Hin; try discriminate; try done;
          try congruence;
          try (by match goal with
                  | H : _ ∈ Verbose <$> _ |- _ => apply not_elem_of_Verbose in H
                  end).
        destruct Htail as [->|[e ->]];
          match goal with
          | H : _ ∈ _ |- _ =>
              rewrite ?list_elem_of_singleton, ?elem_of_nil in H; done
          end. }
      exists f. split; [done|]. cbn zeta. split; [done|]. split; [done|].
      split; [|done].
      rewrite !elem_of_app, !elem_of_cons. auto.
Qed.


Lemma main_Verbose (w : world) (l : verboseLine) :
  Verbose l ∈ (main w).1 → str "-v" ∈ drop 1 (Args w).
Proof.
  destruct (main_outcome w) as [[msg ->]|(f & Hparse & Htoken & Hrun)].
  { simpl. by intros [=]%list_elem_of_singleton. }
  cbn zeta in Hrun.
  destruct Hrun as [(e & _ & ->)|[(_ & _ & ->)|(Hok & _ & vl & Hvl & Hsel)]];
    cbn [fst].
  - rewrite !elem_of_app, ?elem_of_cons, ?list_elem_of_singleton, ?elem_of_nil.
    intros Hin; decompose [or] Hin; clear Hin; try discriminate; done.
  - rewrite !elem_of_app, ?elem_of_cons, ?list_elem_of_singleton, ?elem_of_nil.
    intros Hin; decompose [or] Hin; clear Hin; try discriminate; done.
  - assert (Verbose l ∈ Verbose <$> vl → str "-v" ∈ drop 1 (Args w)) as Hv.
    { intros Hin. apply (accepted_verbose _ _ Hparse), Hvl. intros ->.
      by apply elem_of_nil in Hin. }
    cbn zeta in Hsel.
    destruct Hsel as [[_ ->]|(choice & tail & Hchoice & -> & Htail)]; cbn [fst];
      rewrite !elem_of_app, ?elem_of_cons, ?list_elem_of_singleton, ?elem_of_nil;
      intros Hin; decompose [or] Hin; clear Hin; try discriminate; try done;
      auto.
    destruct Htail as [->|[e ->]];
      match goal with
      | H : _ ∈ _ |- _ =>
          rewrite ?list_elem_of_singleton, ?elem_of_nil in H; done
      end.
Qed.

End ExecutionFacts.

(** X17.  The program executes nothing but a command it was given and the
    user chose: an executed command is the menu entry selected from the
    aggregated list of a successful [getCommands], it is a non-empty
    single trimmed line, and it was echoed on standard output. *)
Theorem executed_command_was_offered (w : world) (cmd : bytes) :
  Exec cmd ∈ (main w).1 →
  ∃ f, parseArgs (Args w) = inr f ∧
    let r := getCommands (verbose f)
               (network w (OPENAI_TOKEN w)
                  (buildPrompt (taskOf (Args w) f) (context w))
                  (verbose f) (numCommands f)) in
    succeeded r
    ∧ cmd ∈ aggregated r
    ∧ selectCommand (aggregated r) (stdinLine w) = Some cmd
    ∧ cmd ≠ [] ∧ (LF ∉ cmd) ∧ TrimSpace cmd = cmd
    ∧ Stdout cmd ∈ (main w).1.
Proof.
  intros (f & Hparse & Hok & Hsel & Hout & _)%main_Exec. exists f.
  split; [done|]. cbn zeta in *.
  set (r := getCommands _ _) in *.
  assert (cmd ∈ aggregated r) as Hin.
  { apply selectCommand_Some in Hsel as (idx & _ & _ & Hlook).
    by eapply list_elem_of_lookup_2. }
  split; [done|]. split; [done|]. split; [done|].
  unfold aggregated in Hin.
  pose proof (getCommands_nonempty (verbose f)
    (network w (OPENAI_TOKEN w) (buildPrompt (taskOf (Args w) f) (context w))
       (verbose f) (numCommands f))) as Hne.
  pose proof (getCommands_trimmedLine (verbose f)
    (network w (OPENAI_TOKEN w) (buildPrompt (taskOf (Args w) f) (context w))
       (verbose f) (numCommands f))) as Htl.
  fold r in Hne, Htl.
  destruct (r.1) as [|combined individual]; [by apply elem_of_nil in Hin|].
  apply Forall_cons in Hne as [Hne _]. apply Forall_cons in Htl as [Htl _].
  rewrite Forall_forall in Hne, Htl.
  destruct (Htl cmd Hin) as [Hline Htrim].
  split; [by apply Hne|]. done.
Qed.

Lemma executed_command_was_offered_witness :
  Exec (str "pwd")
    ∈ (main (sampleWorld [str "ai"; str "where"]
               [answered 200 (str "$ pwd") 5; answered 200 (str "ls") 7;
                answered 200 (str "pwd") 9])).1
  ∧ ∃ f, parseArgs (Args (sampleWorld [str "ai"; str "where"]
               [answered 200 (str "$ pwd") 5; answered 200 (str "ls") 7;
                answered 200 (str "pwd") 9])) = inr f.
Proof.
  assert (Exec (str "pwd")
    ∈ (main (sampleWorld [str "ai"; str "where"]
               [answered 200 (str "$ pwd") 5; answered 200 (str "ls") 7;
                answered 200 (str "pwd") 9])).1) as H.
  { vm_compute. repeat (apply elem_of_cons; first [by left | right]). }
  split; [exact H|].
  destruct (executed_command_was_offered _ _ H) as (f & Hf & _). by exists f.
Defined.



(** X19.  The verbose report is printed only when [-v] stands among the
    arguments. *)
Theorem verbose_report_needs_flag (w : world) (l : verboseLine) :
  Verbose l ∈ (main w).1 → str "-v" ∈ drop 1 (Args w).
Proof. apply main_Verbose. Qed.

Lemma verbose_report_needs_flag_witness :
  str "-v" ∈ drop 1 (Args (sampleWorld [str "ai"; str "-v"; str "where"]
                             [answered 200 (str "pwd") 5])).
Proof.
  apply (verbose_report_needs_flag
           (sampleWorld [str "ai"; str "-v"; str "where"]
              [answered 200 (str "pwd") 5]) VHeader).
  vm_compute. repeat (apply elem_of_cons; first [by left | right]).
Defined.

(** ** The verbose report *)
Section ReportFacts.

(** The report, part by part. *)
Lemma report_parts (combined : apiCallResult) (individual : list apiCallResult)
    (l : verboseLine) :
  l ∈ printVerboseOutput (combined :: individual) ↔
  l = VHeader ∨ l = VCommandsGenerated (length (Commands combined))
  ∨ (individual ≠ [] ∧
     (l = VTotalTime (Duration combined)
      ∨ l = VConcurrentCalls (length individual)
      ∨ l = VAverageTime (Z.quot (Duration combined)
                                 (Z.of_nat (length individual)))))
  ∨ (individual = [] ∧ l = VRequestTime (Duration combined))
  ∨ l = VGenerated
  ∨ (∃ i cmd, l = VCommand (i + 1) cmd ∧ Commands combined !! i = Some cmd)
  ∨ (∃ i r, l = VResponse (i + 1) (RawResponse r)
            ∧ individual !! i = Some r ∧ RawResponse r ≠ [])
  ∨ (l = VNoRawResponses ∧ Forall (λ r, RawResponse r = []) individual)
  ∨ l = VFooter.
Proof.
  unfold printVerboseOutput.
  set (responses := omap id (imap _ individual)).
  assert (∀ l', l' ∈ responses ↔
                ∃ i r, l' = VResponse (i + 1) (RawResponse r)
                       ∧ individual !! i = Some r ∧ RawResponse r ≠ []) as Hresp.
  { intros l'. unfold responses. rewrite list_elem_of_omap. split.
    - intros (o & (i & r & -> & Hr)%elem_of_lookup_imap & Ho).
      destruct (RawResponse r) as [|b raw] eqn:Hraw; [done|].
      simpl in Ho. injection Ho as <-. exists i, r. by rewrite Hraw.
    - intros (i & r & -> & Hr & Hraw).
      exists (Some (VResponse (i + 1) (RawResponse r))). split; [|done].
      apply elem_of_lookup_imap. exists i, r. split; [|done].
      by destruct (RawResponse r). }
  assert (length responses = 0%nat
          ↔ Forall (λ r, RawResponse r = []) individual) as Hnone.
  { split.
    - intros Hlen. apply Forall_forall. intros r Hr.
      destruct (RawResponse r) as [|b raw] eqn:Hraw; [done|].
      apply list_elem_of_lookup in Hr as [i Hi].
      assert (VResponse (i + 1) (RawResponse r) ∈ responses) as Hin.
      { apply Hresp. exists i, r. by rewrite Hraw. }
      destruct responses; [by apply elem_of_nil in Hin | done].
    - intros Hall. destruct responses as [|l' ls]; [done|].
      destruct (proj1 (Hresp l') ltac:(apply elem_of_cons; auto))
        as (i & r & _ & Hr & Hraw).
      rewrite Forall_forall in Hall. exfalso. apply Hraw, Hall.
      by eapply list_elem_of_lookup_2. }
  assert ((0 < length individual)%nat ↔ individual ≠ []) as Hlen
    by (destruct individual; simpl; split; (done || lia)).
  destruct (Nat.ltb_spec 0 (length individual)) as [Hpos|Hzero];
    destruct (Nat.eqb_spec (length responses) 0) as [H0|H0];
    rewrite !elem_of_app, ?elem_of_cons, ?elem_of_nil, Hresp, elem_of_lookup_imap;
    rewrite Hnone in H0;
    [apply Hlen in Hpos..
    | assert (individual = []) by (destruct individual; simpl in *; (done || lia))
    | assert (individual = []) by (destruct individual; simpl in *; (done || lia))];
    tauto.
Qed.

End ReportFacts.

(** X20.  The report lists the aggregated commands, each once under its
    number, counted from 1 in the order of the aggregated list. *)
Theorem report_lists_commands (combined : apiCallResult)
    (individual : list apiCallResult) (k : nat) (cmd : bytes) :
  VCommand k cmd ∈ printVerboseOutput (combined :: individual)
  ↔ (1 ≤ k)%nat ∧ Commands combined !! (k - 1)%nat = Some cmd.
Proof.
  rewrite report_parts. split.
  - intros [?|[?|[[_ [?|[?|?]]]|[[_ ?]|[?|[(i & c & [= -> ->] & Hi)|
             [(i & r & ? & _)|[[? _]|?]]]]]]]]; try discriminate.
    split; [lia|]. by replace (i + 1 - 1)%nat with i by lia.
  - intros [Hk Hlook]. do 5 right. left. exists (k - 1)%nat, cmd.
    split; [|done]. f_equal. lia.
Qed.

(** X21.  The report shows the raw response of exactly those calls that
    kept one, under the number of the call in completion order, and it
    prints the note that none was captured exactly when no call kept
    one. *)
Theorem report_raw_responses (combined : apiCallResult)
    (individual : list apiCallResult) :
  (∀ k raw,
     VResponse k raw ∈ printVerboseOutput (combined :: individual)
     ↔ (1 ≤ k)%nat ∧ raw ≠ []
       ∧ ∃ r, individual !! (k - 1)%nat = Some r ∧ RawResponse r = raw)
  ∧ (VNoRawResponses ∈ printVerboseOutput (combined :: individual)
     ↔ Forall (λ r, RawResponse r = []) individual).
Proof.
  split; [intros k raw|]; rewrite report_parts; split.
  - intros [?|[?|[[_ [?|[?|?]]]|[[_ ?]|[?|[(i & c & ? & _)|
             [(i & r & [= -> ->] & Hi & Hraw)|[[? _]|?]]]]]]]]; try discriminate.
    split; [lia|]. split; [done|]. exists r.
    by replace (i + 1 - 1)%nat with i by lia.
  - intros (Hk & Hraw & r & Hlook & <-). do 6 right. left.
    exists (k - 1)%nat, r. split; [f_equal; lia | done].
  - intros [?|[?|[[_ [?|[?|?]]]|[[_ ?]|[?|[(i & c & ? & _)|
             [(i & r & ? & _)|[[_ Hall]|?]]]]]]]]; (discriminate || done).
  - intros Hall. do 7 right. by left.
Qed.

(** X22.  The report never divides by zero: the total and the average are
    printed only when there is at least one per-call result, and the
    single request time only when there is none. *)
Theorem report_timing (combined : apiCallResult)
    (individual : list apiCallResult) (d : Z) :
  (VAverageTime d ∈ printVerboseOutput (combined :: individual)
   ↔ individual ≠ []
     ∧ d = Z.quot (Duration combined) (Z.of_nat (length individual)))
  ∧ (VRequestTime d ∈ printVerboseOutput (combined :: individual)
     ↔ individual = [] ∧ d = Duration combined).
Proof.
  split; rewrite report_parts; split.
  - intros [?|[?|[[Hne [?|[?|[= ->]]]]|[[_ ?]|[?|[(i & c & ? & _)|
             [(i & r & ? & _)|[[? _]|?]]]]]]]]; (discriminate || done).
  - intros [Hne ->]. do 2 right. left. auto.
  - intros [?|[?|[[_ [?|[?|?]]]|[[Hnil [= ->]]|[?|[(i & c & ? & _)|
             [(i & r & ? & _)|[[? _]|?]]]]]]]]; (discriminate || done).
  - intros [-> ->]. do 3 right. left. auto.
Qed.

(** ** The prompt and the environment context *)
Section PromptFacts.

Lemma context_loop (ctx : list (bytes * bytes)) :
  foldl (λ b kv, if isEmpty kv.2 then b
                 else b ++ str "- " ++ kv.1 ++ str ": " ++ kv.2 ++ [LF])
        [] ctx
  = flat_map contextLine ctx.
Proof.
  rewrite (foldl_flat_map _ contextLine); [done|].
  intros acc kv. unfold contextLine. destruct (isEmpty kv.2); [|done].
  by rewrite app_nil_r.
Qed.

(** The prompt is its fixed head, one line per context entry with a
    value, and the task section. *)
Lemma buildPrompt_parts (task : bytes) (ctx : list (bytes * bytes)) :
  buildPrompt task ctx
  = promptHead (lookupCtx ctx (str "shell"))
    ++ flat_map contextLine ctx ++ promptTail task.
Proof.
  unfold buildPrompt, promptHead, promptTail.
  rewrite context_loop, <- !app_assoc. reflexivity.
Qed.

Lemma lookupCtx_elem (ctx : list (bytes * bytes)) k v :
  NoDup (ctx.*1) → (k, v) ∈ ctx → lookupCtx ctx k = v.
Proof.
  unfold lookupCtx. induction ctx as [|[k0 v0] ctx IH]; simpl.
  - by intros _ ?%elem_of_nil.
  - rewrite NoDup_cons. intros [Hk0 Hnd] [[= -> ->]|Hin]%elem_of_cons.
    + by rewrite bool_decide_eq_true_2.
    + case_bool_decide as Hk; [|by apply IH]. subst k0. exfalso. apply Hk0.
      apply list_elem_of_fmap. by exists (k, v).
Qed.

Lemma lookupCtx_missing (ctx : list (bytes * bytes)) k :
  k ∉ ctx.*1 → lookupCtx ctx k = [].
Proof.
  unfold lookupCtx. induction ctx as [|[k0 v0] ctx IH]; simpl; [done|].
  rewrite not_elem_of_cons. intros [Hk Hin].
  rewrite bool_decide_eq_false_2 by done. by apply IH.
Qed.

Lemma lookupCtx_Permutation (ctx ctx' : list (bytes * bytes)) k :
  NoDup (ctx.*1) → ctx ≡ₚ ctx' → lookupCtx ctx k = lookupCtx ctx' k.
Proof.
  intros Hnd Hperm.
  assert (NoDup (ctx'.*1)) as Hnd' by (by rewrite <- Hperm).
  destruct (decide (k ∈ ctx.*1)) as [Hin|Hout].
  - apply list_elem_of_fmap in Hin as ([k0 v] & -> & Hin). simpl.
    rewrite (lookupCtx_elem _ _ _ Hnd Hin). symmetry.
    apply lookupCtx_elem; [done|]. by rewrite <- Hperm.
  - rewrite (lookupCtx_missing _ _ Hout). symmetry.
    apply lookupCtx_missing. by rewrite <- Hperm.
Qed.

Lemma contextLine_filter (ctx : list (bytes * bytes)) :
  flat_map contextLine (filter (λ kv, kv.2 ≠ []) ctx) = flat_map contextLine ctx.
Proof.
  induction ctx as [|[k v] ctx IH]; [done|].
  destruct v as [|b v].
  - rewrite filter_cons_False by (simpl; tauto). simpl. by rewrite IH.
  - rewrite filter_cons_True by done. simpl. by rewrite IH.
Qed.

Lemma lookupCtx_filter (ctx : list (bytes * bytes)) k :
  NoDup (ctx.*1) →
  lookupCtx (filter (λ kv, kv.2 ≠ []) ctx) k = lookupCtx ctx k.
Proof.
  unfold lookupCtx. induction ctx as [|[k0 v0] ctx IH]; [done|].
  rewrite fmap_cons, NoDup_cons. intros [Hk0 Hnd]. simpl fst in Hk0.
  destruct v0 as [|b v0].
  - rewrite filter_cons_False by (simpl; tauto). rewrite IH by done. simpl.
    case_bool_decide as Hk; [|done]. subst k0.
    by apply (lookupCtx_missing ctx k).
  - rewrite filter_cons_True by done. simpl.
    case_bool_decide; [done | by apply IH].
Qed.

End PromptFacts.

(** X23.  The prompt always ends with the task section, which holds the
    task text as it is; two different tasks never give the same prompt. *)
Theorem prompt_carries_task (task task' : bytes) (ctx : list (bytes * bytes)) :
  promptTail task `suffix_of` buildPrompt task ctx
  ∧ (buildPrompt task ctx = buildPrompt task' ctx → task = task').
Proof.
  split.
  - rewrite buildPrompt_parts, app_assoc. by eexists.
  - rewrite !buildPrompt_parts. intros H.
    apply app_inv_head, app_inv_head in H. unfold promptTail in H.
    apply app_inv_head, app_inv_head, app_inv_head in H.
    by apply app_inv_tail in H.
Qed.

(** X24.  A context entry with an empty value never shows in the prompt:
    over a context with distinct keys, as a map has them, the prompt is
    the one built from the entries that have a value. *)
Theorem prompt_skips_empty_values (task : bytes) (ctx : list (bytes * bytes)) :
  NoDup (ctx.*1) →
  buildPrompt task ctx = buildPrompt task (filter (λ kv, kv.2 ≠ []) ctx).
Proof.
  intros Hnd. rewrite !buildPrompt_parts.
  by rewrite contextLine_filter, lookupCtx_filter.
Qed.

Lemma prompt_skips_empty_values_witness :
  buildPrompt (str "list")
    [(str "os", str "linux"); (str "system", []); (str "shell", str "zsh")]
  = buildPrompt (str "list")
      (filter (λ kv, kv.2 ≠ [])
         [(str "os", str "linux"); (str "system", []); (str "shell", str "zsh")]).
Proof.
  apply prompt_skips_empty_values.
  apply (bool_decide_unpack _). vm_compute. exact I.
Defined.

Section EnvironmentFacts.

Lemma replaceFrom_sublist (old : bytes) (skip : nat) (s : bytes) :
  replaceFrom old [] skip s `sublist_of` s.
Proof.
  revert skip. induction s as [|c s IH]; intros skip; simpl; [done|].
  destruct skip as [|k]; [|by apply sublist_cons].
  destruct (HasPrefix (c :: s) old); [by apply sublist_cons|].
  by apply sublist_skip.
Qed.

Lemma TrimSpace_sublist (s : bytes) : TrimSpace s `sublist_of` s.
Proof.
  destruct (TrimSpace_slice s) as (l & r & Hs). rewrite Hs at 2.
  by apply sublist_inserts_l, sublist_inserts_r.
Qed.

(** The five entries of the context map. *)
Lemma gatherContext_entries (h : host) (ctx : list (bytes * bytes)) :
  rangeOrder (gatherContext h) ctx →
  ctx ≡ₚ [(str "os", GOOS h);
          (str "arch", GOARCH h);
          (str "shell", if isEmpty (SHELL h) then str "sh" else SHELL h);
          (str "safe_mode", str "on");
          (str "system", readSystemInfo (etcIssue h))].
Proof.
  unfold rangeOrder, gatherContext. intros ->. apply map_to_list_to_map.
  apply (bool_decide_unpack _). vm_compute. exact I.
Qed.

Lemma contextLine_sliceOf (kv : bytes * bytes) (ctx : list (bytes * bytes)) :
  kv ∈ ctx → sliceOf (contextLine kv) (flat_map contextLine ctx).
Proof.
  intros (l1 & l2 & ->)%list_elem_of_split.
  rewrite flat_map_app. simpl. by eexists _, _.
Qed.

End EnvironmentFacts.

(** X25.  The order in which the context map is visited changes nothing
    in the prompt but the order of its context lines: head, task section
    and length are the same, and the lines are the same up to their
    order. *)
Theorem prompt_up_to_range_order (task : bytes) (ctx ctx' : list (bytes * bytes)) :
  NoDup (ctx.*1) → ctx ≡ₚ ctx' →
  ∃ head,
    buildPrompt task ctx = head ++ flat_map contextLine ctx ++ promptTail task
    ∧ buildPrompt task ctx' = head ++ flat_map contextLine ctx' ++ promptTail task
    ∧ contextLine <$> ctx ≡ₚ contextLine <$> ctx'
    ∧ length (buildPrompt task ctx) = length (buildPrompt task ctx').
Proof.
  intros Hnd Hperm. exists (promptHead (lookupCtx ctx (str "shell"))).
  rewrite !buildPrompt_parts, <- (lookupCtx_Permutation _ _ _ Hnd Hperm).
  split; [done|]. split; [done|]. split; [by rewrite Hperm|].
  rewrite !length_app. do 2 f_equal.
  rewrite !flat_map_concat_map. apply Permutation_length.
  assert (∀ l l' : list bytes, l ≡ₚ l' → concat l ≡ₚ concat l') as Hconcat.
  { induction 1 as [|x l l' _ IH|x y l|l l' l'' _ IH1 _ IH2]; simpl.
    - done.
    - by rewrite IH.
    - rewrite !app_assoc. f_equiv. apply Permutation_app_comm.
    - by etrans. }
  apply Hconcat. change (contextLine <$> ctx ≡ₚ contextLine <$> ctx').
  by rewrite Hperm.
Qed.

Lemma prompt_up_to_range_order_witness :
  ∃ head,
    buildPrompt (str "list") [(str "os", str "linux"); (str "shell", str "zsh")]
    = head ++ flat_map contextLine [(str "os", str "linux"); (str "shell", str "zsh")]
           ++ promptTail (str "list")
    ∧ buildPrompt (str "list") [(str "shell", str "zsh"); (str "os", str "linux")]
      = head ++ flat_map contextLine [(str "shell", str "zsh"); (str "os", str "linux")]
             ++ promptTail (str "list")
    ∧ contextLine <$> [(str "os", str "linux"); (str "shell", str "zsh")]
      ≡ₚ contextLine <$> [(str "shell", str "zsh"); (str "os", str "linux")]
    ∧ length (buildPrompt (str "list")
                [(str "os", str "linux"); (str "shell", str "zsh")])
      = length (buildPrompt (str "list")
                  [(str "shell", str "zsh"); (str "os", str "linux")]).
Proof.
  apply prompt_up_to_range_order; [|apply perm_swap].
  apply (bool_decide_unpack _). vm_compute. exact I.
Defined.

(** X26.  Whatever the host and the order in which the context map is
    visited, the prompt names a shell, the value of [SHELL] or [sh] when
    it is unset, and carries the line [- safe_mode: on]; when
    [/etc/issue] cannot be read it carries no line for the system. *)
Theorem prompt_of_host (h : host) (ctx : list (bytes * bytes)) (task : bytes) :
  rangeOrder (gatherContext h) ctx →
  (if isEmpty (SHELL h) then str "sh" else SHELL h) ≠ []
  ∧ buildPrompt task ctx
    = promptHead (if isEmpty (SHELL h) then str "sh" else SHELL h)
      ++ flat_map contextLine ctx ++ promptTail task
  ∧ sliceOf (str "- safe_mode: on" ++ [LF]) (buildPrompt task ctx)
  ∧ (etcIssue h = None →
     ∀ v, (str "system", v) ∈ ctx → contextLine (str "system", v) = []).
Proof.
  intros Hctx%gatherContext_entries.
  set (entries := [(str "os", GOOS h); (str "arch", GOARCH h);
                   (str "shell", if isEmpty (SHELL h) then str "sh" else SHELL h);
                   (str "safe_mode", str "on");
                   (str "system", readSystemInfo (etcIssue h))]) in *.
  assert (NoDup (entries.*1)) as Hnd
    by (apply (bool_decide_unpack _); vm_compute; exact I).
  assert (NoDup (ctx.*1)) as Hnd' by (by rewrite Hctx).
  split; [by destruct (SHELL h)|].
  assert (buildPrompt task ctx
          = promptHead (if isEmpty (SHELL h) then str "sh" else SHELL h)
            ++ flat_map contextLine ctx ++ promptTail task) as Hprompt.
  { rewrite buildPrompt_parts. do 2 f_equal.
    by rewrite (lookupCtx_Permutation _ _ _ Hnd' Hctx). }
  split; [done|]. split.
  - rewrite Hprompt.
    assert ((str "safe_mode", str "on") ∈ ctx) as Hin.
    { rewrite Hctx. unfold entries. do 3 (apply elem_of_cons; right).
      apply elem_of_cons. by left. }
    destruct (contextLine_sliceOf _ _ Hin) as (l & r & ->).
    exists (promptHead (if isEmpty (SHELL h) then str "sh" else SHELL h) ++ l),
           (r ++ promptTail task).
    by rewrite <- !app_assoc.
  - intros Hissue v Hv. rewrite Hctx in Hv. unfold entries in Hv.
    rewrite Hissue in Hv.
    rewrite !elem_of_cons, elem_of_nil in Hv.
    destruct Hv as [Hv|[Hv|[Hv|[Hv|[Hv|[]]]]]];
      try (apply (f_equal fst) in Hv; vm_compute in Hv; discriminate Hv).
    apply (f_equal snd) in Hv. simpl in Hv. by rewrite Hv.
Qed.

Lemma prompt_of_host_witness :
  rangeOrder (gatherContext sampleHost)
             (map_to_list (gatherContext sampleHost))
  ∧ sliceOf (str "- safe_mode: on" ++ [LF])
            (buildPrompt (str "list") (map_to_list (gatherContext sampleHost))).
Proof.
  assert (rangeOrder (gatherContext sampleHost)
                     (map_to_list (gatherContext sampleHost))) as H
    by (unfold rangeOrder; reflexivity).
  split; [exact H|].
  exact (proj1 (proj2 (proj2 (prompt_of_host sampleHost _ (str "list") H)))).
Defined.

(** X27.  [readSystemInfo] only removes bytes from the content of
    [/etc/issue]; what it returns has no white space at either end, and it
    is empty when the file cannot be read. *)
Theorem system_info_is_trimmed_excerpt (data : bytes) :
  readSystemInfo (Some data) `sublist_of` data
  ∧ TrimSpace (readSystemInfo (Some data)) = readSystemInfo (Some data)
  ∧ readSystemInfo None = [].
Proof.
  split; [|split; [apply TrimSpace_idempotent | done]].
  unfold readSystemInfo, ReplaceAll.
  etrans; [apply TrimSpace_sublist|].
  etrans; apply replaceFrom_sublist.
Qed.
